(** * GraphRx: the [SummationMPNN] forward pass and the molecule counter

    A shallow embedding of
    - [graphinvent/gnn/summation_mpnn.py]: the abstract [SummationMPNN]
      class, its three hooks and the tensor bookkeeping of [forward];
    - [tools/data/MOSES/count_molecules.py]: [count_molecules_in_smi_file].

    Tensors are nested lists, outermost dimension first.  Their entries are
    integers: the node and edge feature tensors of the program are one-hot
    and count encodings, on which the sums and the [.long()] cast of the
    source are exact.  Every index operation that Python checks at run time
    is checked here and raises the exception Python raises. *)

From Stdlib Require Import Ascii.
From stdpp Require Import base tactics option list sorting numbers strings pretty gmap.

#[local] Set Warnings "-clear-no-such-hyp".

(** ** Exceptions and the two monads of the embedding *)

Inductive exn : Type :=
  | NotImplementedError
  | AttributeError (attr : string)
  | IndexError
  | RuntimeError
  | FileNotFoundError
  | IsADirectoryError
  | PermissionError.

Inductive result (A : Type) : Type :=
  | Ok (a : A)
  | Raise (e : exn).
Arguments Ok {A} a.
Arguments Raise {A} e.

#[global] Instance result_ret : MRet result := λ A a, Ok a.
#[global] Instance result_bind : MBind result := λ A B f m,
  match m with
  | Ok a => f a
  | Raise e => Raise e
  end.

(** A computation that reads and writes a state [S] and may raise; the state
    reached when the exception was raised is kept. *)
Definition stateE (S A : Type) : Type := S → result A * S.

#[global] Instance stateE_ret {S} : MRet (stateE S) := λ A a s, (Ok a, s).
#[global] Instance stateE_bind {S} : MBind (stateE S) := λ A B f m s,
  match m s with
  | (Ok a, s') => f a s'
  | (Raise e, s') => (Raise e, s')
  end.

Definition lift {S A} (r : result A) : stateE S A := λ s, (r, s).

Fixpoint foldM `{MBind M, MRet M} {A B} (f : B → A → M B) (b : B)
    (l : list A) : M B :=
  match l with
  | [] => mret b
  | x :: l' => b' ← f b x; foldM f b' l'
  end.

(** ** The tensor primitives that [forward] uses *)

Module Torch.

Abbreviation tensor1 := (list Z).
Abbreviation tensor2 := (list (list Z)).
Abbreviation tensor3 := (list (list (list Z))).
Abbreviation tensor4 := (list (list (list (list Z)))).
Abbreviation bool_tensor2 := (list (list bool)).

(** Shapes: a tensor is rectangular. *)
Definition shape2 (n m : nat) (t : tensor2) : Prop :=
  length t = n ∧ Forall (λ r, length r = m) t.
Definition shape3 (b n m : nat) (t : tensor3) : Prop :=
  length t = b ∧ Forall (shape2 n m) t.
Definition shape4 (b n k m : nat) (t : tensor4) : Prop :=
  length t = b ∧ Forall (shape3 n k m) t.

(** [t.shape[1]] of a tensor with at least one outer entry. *)
Definition shape_1 {A} (t : list (list A)) : nat :=
  match t with
  | m :: _ => length m
  | [] => 0
  end.

(** [t[i]] for an integer index [i >= 0]. *)
Definition getitem {A} (t : list A) (i : nat) : result A :=
  match t !! i with
  | Some x => Ok x
  | None => Raise IndexError
  end.

(** [torch.sum(t, dim=-1)] on the innermost dimension. *)
Definition sum1 (t : tensor1) : Z := foldr Z.add 0%Z t.
Definition sum_last2 (t : tensor2) : tensor1 := sum1 <$> t.
Definition sum_last3 (t : tensor3) : tensor2 := sum_last2 <$> t.
Definition sum_last4 (t : tensor4) : tensor3 := sum_last3 <$> t.

(** [t.nonzero()]: the indices of the nonzero entries, in row-major order. *)
Fixpoint nonzero1_from (k : nat) (t : tensor1) : list nat :=
  match t with
  | [] => []
  | x :: t' =>
      if bool_decide (x = 0%Z) then nonzero1_from (S k) t'
      else k :: nonzero1_from (S k) t'
  end.
Definition nonzero1 (t : tensor1) : list nat := nonzero1_from 0 t.

Fixpoint nonzero2_from (i : nat) (t : tensor2) : list (nat * nat) :=
  match t with
  | [] => []
  | r :: t' => (pair i <$> nonzero1 r) ++ nonzero2_from (S i) t'
  end.
Definition nonzero2 (t : tensor2) : list (nat * nat) := nonzero2_from 0 t.

Fixpoint nonzero3_from (b : nat) (t : tensor3) : list (nat * nat * nat) :=
  match t with
  | [] => []
  | m :: t' =>
      ((λ ik : nat * nat, (b, ik.1, ik.2)) <$> nonzero2 m)
        ++ nonzero3_from (S b) t'
  end.
Definition nonzero3 (t : tensor3) : list (nat * nat * nat) :=
  nonzero3_from 0 t.

(** [t.view(-1)] of a two-dimensional tensor. *)
Definition view_flat (t : tensor2) : tensor1 := mjoin t.

(** [t.max()]: raises on a tensor without elements. *)
Definition tensor_max (t : tensor1) : result Z :=
  match t with
  | [] => Raise RuntimeError
  | x :: t' => Ok (foldr Z.max x t')
  end.

(** [torch.zeros(n, d, h)] and [torch.zeros(n, d)], where [d] is the value
    of a tensor element: a negative size raises. *)
Definition zeros3 (n : nat) (d : Z) (h : nat) : result tensor3 :=
  if bool_decide (d < 0)%Z then Raise RuntimeError
  else Ok (replicate n (replicate (Z.to_nat d) (replicate h 0%Z))).
Definition zeros2 (n : nat) (d : Z) : result tensor2 :=
  if bool_decide (d < 0)%Z then Raise RuntimeError
  else Ok (replicate n (replicate (Z.to_nat d) 0%Z)).

(** [torch.zeros_like(t)]. *)
Definition zeros_like (t : tensor3) : tensor3 :=
  fmap (M := list) (fmap (M := list) (fmap (M := list) (λ _, 0%Z))) t.

(** Broadcasting a row of length [length row] to length [n]: the lengths
    agree, or the row has one element, which is repeated. *)
Definition broadcast_row (n : nat) (row : tensor1) : result tensor1 :=
  if bool_decide (length row = n) then Ok row
  else match row with
       | [x] => Ok (replicate n x)
       | _ => Raise RuntimeError
       end.

(** [t[i, j, :] = row]: the indices are checked first, then the row is
    broadcast to the length of the row it replaces. *)
Definition setitem_row (t : tensor3) (i j : nat) (row : tensor1)
    : result tensor3 :=
  m ← getitem t i;
  old ← getitem m j;
  new ← broadcast_row (length old) row;
  Ok (<[i := <[j := new]> m]> t).

(** [t[i, j] = x]. *)
Definition setitem (t : tensor2) (i j : nat) (x : Z) : result tensor2 :=
  r ← getitem t i;
  _ ← getitem r j;
  Ok (<[i := <[j := x]> r]> t).

(** [xs[mask]] for a boolean mask of the length of [xs]. *)
Definition masked_select {A} (xs : list A) (mask : list bool) : list A :=
  (filter (λ xb : A * bool, xb.2 = true) (zip xs mask)).*1.

(** [dst[:, :n, :] = src] for tensors of one shape. *)
Definition slice_assign (dst src : tensor3) (n : nat) : tensor3 :=
  zip_with (λ d s : tensor2, take n s ++ drop n d) dst src.

(** [t[bidc, nidc, :]] for two index tensors of one length. *)
Definition gather (t : tensor3) (bidc nidc : list nat) : result tensor2 :=
  mapM (λ bi : nat * nat, m ← getitem t bi.1; getitem m bi.2) (zip bidc nidc).

(** [t[bidc, nidc, :] = vals]: [vals] has one row per index pair or a single
    row, and each row is broadcast to the row it replaces. *)
Definition index_put (t : tensor3) (bidc nidc : list nat) (vals : tensor2)
    : result tensor3 :=
  let n := length bidc in
  srcs ← (if bool_decide (length vals = n) then Ok vals
          else match vals with
               | [row] => Ok (replicate n row)
               | _ => Raise RuntimeError
               end);
  foldM (λ (t' : tensor3) (w : nat * nat * tensor1),
           setitem_row t' w.1.1 w.1.2 w.2)
        t (zip (zip bidc nidc) srcs).

End Torch.

(** ** The [SummationMPNN] class *)

Module SummationMPNN.
Import Torch.

(** The fields of the [constants] named tuple that the class reads. *)
Record Constants : Type := {
  c_hidden_node_features : nat;
  c_n_edge_features : nat;
  c_message_size : nat;
  c_message_passes : nat
}.

(** The attributes of an instance. *)
Record attrs : Type := {
  hidden_node_features : nat;
  edge_features : nat;
  message_size : nat;
  message_passes : nat;
  constants : Constants
}.

Definition __init__ (c : Constants) : attrs :=
  {| hidden_node_features := c_hidden_node_features c;
     edge_features := c_n_edge_features c;
     message_size := c_message_size c;
     message_passes := c_message_passes c;
     constants := c |}.

(** The methods that [forward] looks up on [self], and the record of the
    calls it made, in order. *)
Inductive method : Type :=
  | m_message_terms
  | m_update
  | m_readout
  | m_aggregate_message.

#[global] Instance method_eq_dec : EqDecision method.
Proof. solve_decision. Defined.

Record world : Type := {
  self : attrs;
  calls : list method
}.

(** A method body receives [self], may change it and may raise.  Tensors are
    values: a method does not write into the tensors it is given. *)
Definition hook (A : Type) : Type := stateE attrs A.

Definition raise {S A} (e : exn) : stateE S A := λ s, (Raise e, s).

(** A class is the table of its methods.  [aggregate_message] is not declared
    by [SummationMPNN]: the lookup [self.aggregate_message] finds it only in a
    class that adds it. *)
Record methods : Type := {
  message_terms : tensor2 → tensor3 → tensor3 → hook tensor2;
  update : tensor2 → tensor2 → hook tensor2;
  readout : tensor3 → tensor3 → bool_tensor2 → hook tensor2;
  aggregate_message :
    option (tensor2 → tensor3 → tensor3 → tensor2 → hook tensor2)
}.

(** The class as the file defines it. *)
Definition SummationMPNN : methods :=
  {| message_terms := λ _ _ _, raise NotImplementedError;
     update := λ _ _, raise NotImplementedError;
     readout := λ _ _ _, raise NotImplementedError;
     aggregate_message := None |}.

(** Calling a method: the call is recorded, the body runs on [self]. *)
Definition call {A} (m : method) (body : hook A) : stateE world A := λ w,
  let '(r, s) := body (self w) in
  (r, {| self := s; calls := calls w ++ [m] |}).

Definition getattr_aggregate_message (cls : methods)
    : stateE world (tensor2 → tensor3 → tensor3 → tensor2 → hook tensor2) :=
  match aggregate_message cls with
  | Some f => mret f
  | None => raise (AttributeError "aggregate_message")
  end.

Definition get_self : stateE world attrs := λ w, (Ok (self w), w).

(** *** Lines 100-123: from the padded batch to neighbour lists *)

Record batch : Type := {
  adjacency : tensor3;
  node_batch_batch_idc : list nat;
  node_batch_node_idc : list nat;
  max_node_degree : Z;
  node_batch_node_nghbs : tensor3;
  node_batch_edges : tensor3;
  node_batch_node_nghb_mask : tensor2
}.

Definition buffers : Type := tensor3 * tensor3 * tensor2.

Definition enumerate {A} (l : list A) : list (nat * A) := imap pair l.

(** [edge_batch_nghb_idc[(edge_batch_batch_idc == batch_id)
                         & (edge_batch_node_idc == node_id)]] *)
Definition neighbors_idc (eb en ek : list nat) (batch_id node_id : nat)
    : list nat :=
  masked_select ek
    (zip_with andb ((λ x, bool_decide (x = batch_id)) <$> eb)
                   ((λ x, bool_decide (x = node_id)) <$> en)).

(** The body of the inner loop, lines 121-123. *)
Definition map_edge (nodes : tensor3) (edges : tensor4)
    (i batch_id node_id : nat) (bufs : buffers) (jn : nat * nat)
    : result buffers :=
  let '(nghbs, edgs, mask) := bufs in
  let '(j, nghb_id) := jn in
  row ← (m ← getitem nodes batch_id; getitem m nghb_id);
  nghbs' ← setitem_row nghbs i j row;
  erow ← (g ← getitem edges batch_id; m ← getitem g node_id;
          getitem m nghb_id);
  edgs' ← setitem_row edgs i j erow;
  mask' ← setitem mask i j 1%Z;
  Ok (nghbs', edgs', mask').

(** The body of the outer loop, lines 117-123. *)
Definition map_node (nodes : tensor3) (edges : tensor4)
    (bidc nidc eb en ek : list nat) (bufs : buffers) (i : nat)
    : result buffers :=
  node_id ← getitem nidc i;
  batch_id ← getitem bidc i;
  foldM (map_edge nodes edges i batch_id node_id) bufs
        (enumerate (neighbors_idc eb en ek batch_id node_id)).

Definition map_edges (a : attrs) (nodes : tensor3) (edges : tensor4)
    : result batch :=
  let adjacency := sum_last4 edges in
  let edge_batch := nonzero3 adjacency in
  let edge_batch_batch_idc := (λ t : nat * nat * nat, t.1.1) <$> edge_batch in
  let edge_batch_node_idc := (λ t : nat * nat * nat, t.1.2) <$> edge_batch in
  let edge_batch_nghb_idc := (λ t : nat * nat * nat, t.2) <$> edge_batch in
  let node_batch := nonzero2 (sum_last3 adjacency) in
  let node_batch_batch_idc := node_batch.*1 in
  let node_batch_node_idc := node_batch.*2 in
  let node_batch_size := length node_batch_batch_idc in
  let node_degrees := view_flat (sum_last3 adjacency) in
  max_node_degree ← tensor_max node_degrees;
  nghbs ← zeros3 node_batch_size max_node_degree (hidden_node_features a);
  edgs ← zeros3 node_batch_size max_node_degree (edge_features a);
  mask ← zeros2 node_batch_size max_node_degree;
  bufs ← foldM (map_node nodes edges node_batch_batch_idc node_batch_node_idc
                  edge_batch_batch_idc edge_batch_node_idc
                  edge_batch_nghb_idc)
               (nghbs, edgs, mask) (seq 0 node_batch_size);
  Ok {| adjacency := adjacency;
        node_batch_batch_idc := node_batch_batch_idc;
        node_batch_node_idc := node_batch_node_idc;
        max_node_degree := max_node_degree;
        node_batch_node_nghbs := bufs.1.1;
        node_batch_edges := bufs.1.2;
        node_batch_node_nghb_mask := bufs.2 |}.

(** *** Lines 125-140: message passing and readout *)

(** Lines 126-127. *)
Definition initial_hidden_nodes (nodes : tensor3) : tensor3 :=
  slice_assign (zeros_like nodes) nodes (shape_1 nodes).

(** One round, lines 130-134. *)
Definition message_pass (cls : methods) (nl : batch) (hidden_nodes : tensor3)
    : stateE world tensor3 :=
  let bidc := node_batch_batch_idc nl in
  let nidc := node_batch_node_idc nl in
  aggregate ← getattr_aggregate_message cls;
  batch_nodes ← lift (gather hidden_nodes bidc nidc);
  messages ← call m_aggregate_message
    (aggregate batch_nodes (node_batch_node_nghbs nl) (node_batch_edges nl)
       (node_batch_node_nghb_mask nl));
  batch_nodes' ← lift (gather hidden_nodes bidc nidc);
  updated ← call m_update (update cls batch_nodes' messages);
  lift (index_put hidden_nodes bidc nidc updated).

(** Line 136. *)
Definition node_mask (adjacency : tensor3) : bool_tensor2 :=
  fmap (M := list) (fmap (M := list) (λ x : Z, bool_decide (x ≠ 0%Z)))
    (sum_last3 adjacency).

(** The rounds of line 129. *)
Definition message_passing (cls : methods) (nl : batch) (passes : nat)
    (hidden_nodes : tensor3) : stateE world tensor3 :=
  foldM (λ h (_ : nat), message_pass cls nl h) hidden_nodes (seq 0 passes).

Definition forward (cls : methods) (nodes : tensor3) (edges : tensor4)
    : stateE world tensor2 :=
  a ← get_self;
  nl ← lift (map_edges a nodes edges);
  let hidden_nodes := initial_hidden_nodes nodes in
  hidden_nodes' ← message_passing cls nl (message_passes a) hidden_nodes;
  call m_readout
    (readout cls hidden_nodes' nodes (node_mask (adjacency nl))).

End SummationMPNN.

(** ** Cells of a two-level list, and the writes of a double loop *)

Module Cells.
Section cells.
Context {A B : Type}.

Definition cell (t : list (list A)) (i j : nat) : option A :=
  t !! i ≫= (.!! j).

(** [t[i][j] = f t[i][j]], nothing out of range. *)
Definition write (f : A → A) (i j : nat) (t : list (list A))
    : list (list A) :=
  alter (alter f j) i t.

(** The writes of one pass of an inner loop that enumerates [nb i] and
    writes [f i k] at column [j] for its [j]-th element [k], and of the
    outer loop over a list of rows. *)
Definition fill_from (f : B → A → A) (i off : nat) (t : list (list A))
    (ks : list B) : list (list A) :=
  foldl (λ t' jk, write (f jk.2) i jk.1 t') t
        (imap (λ j k, (off + j, k)) ks).

Definition fill (nb : nat → list B) (f : nat → B → A → A)
    (t : list (list A)) (rows : list nat) : list (list A) :=
  foldl (λ t' i, fill_from (f i) i 0 t' (nb i)) t rows.

(** [n] rows of [m] cells each. *)
Definition rect (n m : nat) (t : list (list A)) : Prop :=
  length t = n ∧ Forall (λ r, length r = m) t.
End cells.
End Cells.

(** ** What the mapping loop writes, as pure functions

    The three buffers of [map_edges] are filled independently of each other;
    each is a [Cells.fill] of its zero buffer. *)

Module NeighbourLists.
Import Torch SummationMPNN Cells.

(** The row that replaces [old] when [row] is assigned over it. *)
Definition bcast (row old : tensor1) : tensor1 :=
  match broadcast_row (length old) row with
  | Ok new => new
  | Raise _ => old
  end.

Section batch.
Context (nodes : tensor3) (edges : tensor4).

Definition adj : tensor3 := sum_last4 edges.
Definition edge_batch : list (nat * nat * nat) := nonzero3 adj.
Definition eb : list nat := (λ t : nat * nat * nat, t.1.1) <$> edge_batch.
Definition en : list nat := (λ t : nat * nat * nat, t.1.2) <$> edge_batch.
Definition ek : list nat := (λ t : nat * nat * nat, t.2) <$> edge_batch.
Definition node_batch : list (nat * nat) := nonzero2 (sum_last3 adj).
Definition bidc : list nat := node_batch.*1.
Definition nidc : list nat := node_batch.*2.

(** The neighbours that the loop enumerates for the [i]-th batch node. *)
Definition nb (i : nat) : list nat :=
  neighbors_idc eb en ek (bidc !!! i) (nidc !!! i).

Definition node_row (i k : nat) : tensor1 :=
  default [] (cell nodes (bidc !!! i) k).
Definition edge_row (i k : nat) : tensor1 :=
  default [] (g ← edges !! (bidc !!! i); cell g (nidc !!! i) k).

Definition fill_nghbs (t : tensor3) (rows : list nat) : tensor3 :=
  fill nb (λ i k, bcast (node_row i k)) t rows.
Definition fill_edges (t : tensor3) (rows : list nat) : tensor3 :=
  fill nb (λ i k, bcast (edge_row i k)) t rows.
Definition fill_mask (t : tensor2) (rows : list nat) : tensor2 :=
  fill nb (λ _ _ _, 1%Z) t rows.
End batch.
End NeighbourLists.

(** What holds of the neighbour lists that [map_edges] returns: [D] is the
    value of [max_node_degree], the number of columns of the three buffers. *)

Module MapEdgesPost.
Import Torch SummationMPNN Cells NeighbourLists.

Record map_edges_post (a : attrs) (nodes : tensor3) (edges : tensor4)
    (nl : batch) (D : nat) : Prop := {
  post_max :
    tensor_max (view_flat (sum_last3 (adj edges))) = Ok (Z.of_nat D);
  post_degree : max_node_degree nl = Z.of_nat D;
  post_adjacency : adjacency nl = adj edges;
  post_bidc : node_batch_batch_idc nl = bidc edges;
  post_nidc : node_batch_node_idc nl = nidc edges;
  post_nghbs :
    node_batch_node_nghbs nl
    = fill_nghbs nodes edges
        (replicate (length (node_batch edges))
           (replicate D (replicate (hidden_node_features a) 0%Z)))
        (seq 0 (length (node_batch edges)));
  post_edges :
    node_batch_edges nl
    = fill_edges edges
        (replicate (length (node_batch edges))
           (replicate D (replicate (edge_features a) 0%Z)))
        (seq 0 (length (node_batch edges)));
  post_mask :
    node_batch_node_nghb_mask nl
    = fill_mask edges
        (replicate (length (node_batch edges)) (replicate D 0%Z))
        (seq 0 (length (node_batch edges)));
  post_range :
    ∀ i, i < length (node_batch edges) → length (nb edges i) ≤ D
}.
(** The shapes that the loops keep. *)
Definition bufs_wf (n D H E : nat) (bufs : buffers) : Prop :=
  (rect n D bufs.1.1 ∧ ∀ i j r, cell bufs.1.1 i j = Some r → length r = H)
  ∧ (rect n D bufs.1.2 ∧ ∀ i j r, cell bufs.1.2 i j = Some r → length r = E)
  ∧ rect n D bufs.2.

Definition hidden_wf (B N F : nat) (h : tensor3) : Prop :=
  rect B N h ∧ ∀ i j r, cell h i j = Some r → length r = F.
End MapEdgesPost.

(** ** The graph that a padded batch encodes

    Node [k] is a neighbour of node [v] of graph [b] when the adjacency entry
    [(b, v, k)] is not zero.  The neighbours of a node, in ascending order, are
    the one strictly increasing list of these [k]; its length is the degree
    of the node. *)

Module Graph.
Import Torch.

Definition is_neighbours (row : tensor1) (nbrs : list nat) : Prop :=
  StronglySorted lt nbrs
  ∧ ∀ k, k ∈ nbrs ↔ ∃ x, row !! k = Some x ∧ x ≠ 0%Z.

(** All adjacency entries are nonnegative, as they are for one-hot edge
    features. *)
Definition nonnegative (adjacency : tensor3) : Prop :=
  Forall (Forall (Forall (λ x, 0 ≤ x)%Z)) adjacency.

End Graph.

(** ** The statements about the neighbour lists *)

Module NeighbourClaims.
Import Torch SummationMPNN Cells Graph.


(** A batch that conforms to the instance: it has a graph and a node, its
    node rows have [hidden_node_features] entries, its edge rows
    [edge_features] entries, and no adjacency entry is negative. *)
Definition conforming (a : attrs) (nodes : tensor3) (edges : tensor4)
    : Prop :=
  ∃ B N, 0 < B ∧ 0 < N
         ∧ shape3 B N (hidden_node_features a) nodes
         ∧ shape4 B N N (edge_features a) edges
         ∧ nonnegative (sum_last4 edges).


(** The mask marks, for each batch node, the columns below its degree. *)
Definition mask_invariant (nl : batch) : Prop :=
  ∀ i b v,
    node_batch_batch_idc nl !! i = Some b →
    node_batch_node_idc nl !! i = Some v →
    ∃ row,
      cell (adjacency nl) b v = Some row
      ∧ ∀ nbrs, is_neighbours row nbrs →
          1 ≤ length nbrs
          ∧ length nbrs ≤ Z.to_nat (max_node_degree nl)
          ∧ ∀ j, j < Z.to_nat (max_node_degree nl) →
              cell (node_batch_node_nghb_mask nl) i j
              = Some (if decide (j < length nbrs) then 1%Z else 0%Z).

(** The copy of the node rows fails on every batch whose node feature
    dimension differs from [hidden_node_features]. *)
Definition copy_needs_equal_dims (a : attrs) (nodes : tensor3)
    (edges : tensor4) : Prop :=
  ∀ B N F, shape3 B N F nodes → 0 < B → 0 < N →
    F ≠ hidden_node_features a →
    ∃ e, map_edges a nodes edges = Raise e.

End NeighbourClaims.

(** ** The message-passing rounds, as the specification describes them *)

Module Rounds.
Import Torch SummationMPNN Cells.

(** The batch nodes: the index pairs of [node_batch_batch_idc] and
    [node_batch_node_idc]. *)
Definition selected (nl : batch) : list (nat * nat) :=
  zip (node_batch_batch_idc nl) (node_batch_node_idc nl).




(** A method body that leaves the attributes of [self] as they are. *)
Definition keeps_self {A} (body : hook A) : Prop := ∀ s, (body s).2 = s.

Record keeps_attributes (cls : methods) : Prop := {
  message_terms_keeps : ∀ n g e, keeps_self (message_terms cls n g e);
  update_keeps : ∀ n m, keeps_self (update cls n m);
  readout_keeps : ∀ h n m, keeps_self (readout cls h n m);
  aggregate_message_keeps :
    ∀ f, aggregate_message cls = Some f → ∀ n g e m, keeps_self (f n g e m)
}.

(** A computation that leaves the attributes of [self] as they are, and one
    that does not call [message_terms]. *)
Definition frames {A} (m : stateE world A) : Prop :=
  ∀ w, self (m w).2 = self w.

Definition silent {A} (m : stateE world A) : Prop :=
  ∀ w, m_message_terms ∉ calls w → m_message_terms ∉ calls (m w).2.




(** Two subclasses for the examples: one implements the three documented
    hooks and nothing else, the other also provides [aggregate_message].
    Messages are the sums of the neighbours' rows, [update] adds them to the
    hidden states, [readout] returns the hidden states of the first graph. *)
Definition sum_rows (like : tensor1) (rows : tensor2) : tensor1 :=
  foldr (zip_with Z.add) ((λ _, 0%Z) <$> like) rows.

Definition contract_only : methods :=
  {| message_terms := λ n g _, mret (zip_with sum_rows n g);
     update := λ n m, mret (zip_with (zip_with Z.add) n m);
     readout := λ h _ _, mret (default [] (h !! 0));
     aggregate_message := None |}.

Definition with_aggregate : methods :=
  {| message_terms := message_terms contract_only;
     update := update contract_only;
     readout := readout contract_only;
     aggregate_message := Some (λ n g _ _, mret (zip_with sum_rows n g)) |}.

End Rounds.

(** ** [tools/data/MOSES/count_molecules.py] *)

Module CountMolecules.




Definition LF : ascii := "010"%char.
Definition CR : ascii := "013"%char.

(** Text mode with the default [newline=None]: on reading, ["\r\n"] and a
    lone ["\r"] become ["\n"]. *)
Fixpoint universal_newlines (s : string) : string :=
  match s with
  | EmptyString => EmptyString
  | String c s' =>
      if Ascii.eqb c CR then
        match s' with
        | String c' s'' =>
            if Ascii.eqb c' LF then String LF (universal_newlines s'')
            else String LF (universal_newlines s')
        | EmptyString => String LF EmptyString
        end
      else String c (universal_newlines s')
  end.

(** The lines of a text, each with its ["\n"], the last one possibly
    without. *)
Fixpoint split_lines (s : string) : list string :=
  match s with
  | EmptyString => []
  | String c s' =>
      if Ascii.eqb c LF then String c EmptyString :: split_lines s'
      else match split_lines s' with
           | [] => [String c EmptyString]
           | l :: ls => String c l :: ls
           end
  end.


(** [file.readlines()] *)
Definition readlines (file : string) : list string := split_lines file.










(** The number of lines of a text: its line feeds, and one more for a last
    line that no line feed ends. *)
Fixpoint line_feeds (s : string) : nat :=
  match s with
  | EmptyString => 0
  | String c s' => (if Ascii.eqb c LF then 1 else 0) + line_feeds s'
  end.



End CountMolecules.

(** ** The inputs of the examples *)

Module Examples.
Import Torch SummationMPNN CountMolecules.

(** A graph of three nodes with the edges 0-1 and 0-2, on an instance with
    two hidden node features, one edge feature and two message passes, and
    what [map_edges] and [forward] compute on it. *)
Definition attrs0 : attrs :=
  __init__ {| c_hidden_node_features := 2; c_n_edge_features := 1;
              c_message_size := 2; c_message_passes := 2 |}.
Definition nodes0 : tensor3 := [[[1; 0]; [0; 1]; [1; 1]]]%Z.
Definition edges0 : tensor4 :=
  [[[[0]; [1]; [1]]; [[1]; [0]; [0]]; [[1]; [0]; [0]]]]%Z.
Definition batch0 : batch :=
  {| adjacency := [[[0; 1; 1]; [1; 0; 0]; [1; 0; 0]]]%Z;
     node_batch_batch_idc := [0; 0; 0];
     node_batch_node_idc := [0; 1; 2];
     max_node_degree := 2;
     node_batch_node_nghbs :=
       [[[0; 1]; [1; 1]]; [[1; 0]; [0; 0]]; [[1; 0]; [0; 0]]]%Z;
     node_batch_edges := [[[1]; [1]]; [[1]; [0]]; [[1]; [0]]]%Z;
     node_batch_node_nghb_mask := [[1; 1]; [1; 0]; [1; 0]]%Z |}.

Definition world0 : world := {| self := attrs0; calls := [] |}.


(** Batches on which the conversion fails: one whose node rows have three
    entries where [hidden_node_features] is two, and one with a negative
    edge feature, where node 0 has two neighbours but a zero row sum and gets
    no block. *)
Definition nodes_wide : tensor3 := [[[1; 0; 0]; [0; 1; 0]]]%Z.
Definition edges_pair : tensor4 := [[[[0]; [1]]; [[1]; [0]]]]%Z.
Definition nodes_pair : tensor3 := [[[1; 0]; [0; 1]]]%Z.

(** Two batches whose node feature dimension differs from
    [hidden_node_features] and on which the neighbour lists are built all the
    same: rows of one entry are broadcast, and without an edge nothing is
    copied. *)
Definition nodes_narrow : tensor3 := [[[5]; [7]]]%Z.
Definition edges_none : tensor4 := [[[[0]; [0]]; [[0]; [0]]]]%Z.



End Examples.

(** ** Notions for the further properties of the two files *)

Module BatchOrder.
Import Torch SummationMPNN.

(** Row-major order of index pairs. *)
Definition row_major (p q : nat * nat) : Prop :=
  p.1 < q.1 ∨ (p.1 = q.1 ∧ p.2 < q.2).

(** The number of nonzero entries of an adjacency row. *)
Definition degree (row : tensor1) : nat :=
  length (filter (λ x : Z, x ≠ 0%Z) row).


(** The calls of a run of [forward] on an instance with [passes] message
    passes, complete or cut short by an exception: some complete rounds,
    then nothing more, or the [aggregate_message] call of a further round,
    or, after all rounds, the [readout] call. *)
Definition protocol (passes : nat) (tr : list method) : Prop :=
  ∃ k tail,
    tr = mjoin (replicate k [m_aggregate_message; m_update]) ++ tail
    ∧ k ≤ passes
    ∧ (tail = []
       ∨ (tail = [m_aggregate_message] ∧ k < passes)
       ∨ (tail = [m_readout] ∧ k = passes)).

End BatchOrder.

Module Lines.
Import CountMolecules.

(** A line with its line feed, and the rest of a text after its last line
    feed. *)
Definition is_line (l : string) : Prop :=
  ∃ body, line_feeds body = 0 ∧ l = body +:+ String LF EmptyString.
Definition is_fragment (l : string) : Prop :=
  l ≠ EmptyString ∧ line_feeds l = 0.

(** A list of lines of which only the last may lack its line feed. *)
Definition well_formed (ls : list string) : Prop :=
  ∀ i l, ls !! i = Some l → is_line l ∨ (S i = length ls ∧ is_fragment l).

Definition concat_lines (ls : list string) : string :=
  foldr String.append EmptyString ls.

Fixpoint carriage_returns (s : string) : nat :=
  match s with
  | EmptyString => 0
  | String c s' => (if Ascii.eqb c CR then 1 else 0) + carriage_returns s'
  end.



End Lines.


(** Files for the examples of the further properties: the same two lines
    with the line ends of three platforms. *)
Module LineEndExamples.
Import CountMolecules Lines.



End LineEndExamples.


(** Batches for the examples of the further properties. *)
Module BatchExamples.
Import Torch SummationMPNN Examples.

(** Node 0 has three nonzero adjacency entries and the row sum 1. *)
Definition edges_crowded : tensor4 :=
  [[[[1]; [1]; [-1]]; [[0]; [0]; [0]]; [[0]; [0]; [0]]]]%Z.


(** A batch without graphs, and a batch of two graphs without nodes. *)
Definition edges_no_graph : tensor4 := [].
Definition edges_no_node : tensor4 := [[]; []].

(** What [map_edges] builds from a batch without edges. *)
Definition batch_none : batch :=
  {| adjacency := [[[0; 0]; [0; 0]]]%Z;
     node_batch_batch_idc := [];
     node_batch_node_idc := [];
     max_node_degree := 0;
     node_batch_node_nghbs := [];
     node_batch_edges := [];
     node_batch_node_nghb_mask := [] |}.

(** An instance without message passes. *)
Definition world_no_passes : world :=
  {| self := __init__ {| c_hidden_node_features := 2; c_n_edge_features := 1;
                         c_message_size := 2; c_message_passes := 0 |};
     calls := [] |}.

End BatchExamples.


(** * Properties *)

Section foldM_result.
Context {A B : Type}.
Implicit Types (f : B → A → result B) (l : list A).

Lemma foldM_Ok_foldl {C} (π : B → C) (g : C → A → C) f l :
  (∀ b x b', x ∈ l → f b x = Ok b' → π b' = g (π b) x) →
  ∀ b b', foldM f b l = Ok b' → π b' = foldl g (π b) l.
Proof.
  induction l as [|x l IH]; intros Hstep b b' Hf; simpl in *.
  - by inversion Hf.
  - destruct (f b x) as [b1|e] eqn:Hx; simpl in Hf; [|done].
    rewrite <- (Hstep b x b1); [|left|done].
    apply IH; [|done]. intros ????. apply Hstep. by right.
Qed.

Lemma foldM_Ok_inv (I : B → Prop) f l :
  (∀ b x, x ∈ l → I b → ∃ b', f b x = Ok b' ∧ I b') →
  ∀ b, I b → ∃ b', foldM f b l = Ok b' ∧ I b'.
Proof.
  induction l as [|x l IH]; intros Hstep b Hb; simpl.
  - by exists b.
  - destruct (Hstep b x) as (b1 & -> & Hb1); [left|done|]. simpl.
    apply IH; [|done]. intros ????. apply Hstep; [by right|done].
Qed.

Lemma foldM_Ok_pres (I : B → Prop) f l :
  (∀ b x b', x ∈ l → I b → f b x = Ok b' → I b') →
  ∀ b b', I b → foldM f b l = Ok b' → I b'.
Proof.
  induction l as [|x l IH]; intros Hstep b b' Hb Hf; simpl in *.
  - by inversion Hf; subst.
  - destruct (f b x) as [b1|e] eqn:Hx; simpl in Hf; [|done].
    eapply IH; [| |done].
    + intros ????. apply Hstep. by right.
    + eapply Hstep; [left|done|done].
Qed.
End foldM_result.

Module CellFacts.
Import Cells.
Section cells.
Context {A B : Type}.
Implicit Types (t : list (list A)).

Lemma cell_write (f : A → A) i j t i' j' :
  cell (write f i j t) i' j'
  = if decide (i = i' ∧ j = j') then f <$> cell t i j else cell t i' j'.
Proof.
  unfold cell, write. destruct (decide (i = i')) as [<-|Hi].
  - rewrite list_lookup_alter_eq. destruct (t !! i) as [m|]; simpl.
    + destruct (decide (j = j')) as [<-|Hj].
      * rewrite decide_True by done. apply list_lookup_alter_eq.
      * rewrite decide_False by tauto.
        by apply list_lookup_alter_ne.
    + by case_decide.
  - rewrite list_lookup_alter_ne by done.
    by rewrite decide_False by tauto.
Qed.

Lemma length_write (f : A → A) i j t : length (write f i j t) = length t.
Proof. apply length_alter. Qed.

Lemma cell_fill_from (f : B → A → A) i ks : ∀ off t i' j',
  cell (fill_from f i off t ks) i' j'
  = if decide (i = i' ∧ off ≤ j') then
      match ks !! (j' - off) with
      | Some k => f k <$> cell t i j'
      | None => cell t i' j'
      end
    else cell t i' j'.
Proof.
  unfold fill_from.
  induction ks as [|k ks IH]; intros off t i' j'; simpl.
  - by case_decide.
  - rewrite (imap_ext _ (λ j k, (S off + j, k))); last first.
    { intros ???. simpl. f_equal. lia. }
    rewrite IH, !cell_write. replace (off + 0) with off by lia.
    destruct (decide (i = i')) as [<-|Hi].
    + destruct (decide (off ≤ j')) as [Hle|Hgt].
      * rewrite (decide_True (P := i = i ∧ off ≤ j')) by done.
        destruct (decide (off = j')) as [<-|Hne].
        -- rewrite decide_False by lia.
           rewrite decide_True by done.
           by replace (off - off) with 0 by lia.
        -- rewrite decide_True by lia.
           replace (j' - off) with (S (j' - S off)) by lia. simpl.
           by rewrite decide_False by (intros [_ ?]; lia).
      * rewrite !decide_False by lia. done.
    + by rewrite !decide_False by tauto.
Qed.

Lemma length_fill_from (f : B → A → A) i ks : ∀ off t,
  length (fill_from f i off t ks) = length t.
Proof.
  unfold fill_from. generalize (λ (j : nat) (k : B), (j, k)).
  intros _. induction ks as [|k ks IH]; intros off t; simpl; [done|].
  rewrite (imap_ext _ (λ j k, (S off + j, k))); last first.
  { intros ???. simpl. f_equal. lia. }
  by rewrite IH, length_write.
Qed.

Lemma cell_fill (nb : nat → list B) (f : nat → B → A → A) rows :
  NoDup rows → ∀ t i' j',
  cell (fill nb f t rows) i' j'
  = if decide (i' ∈ rows) then
      match nb i' !! j' with
      | Some k => f i' k <$> cell t i' j'
      | None => cell t i' j'
      end
    else cell t i' j'.
Proof.
  unfold fill. induction 1 as [|i rows Hi Hnd IH]; intros t i' j'.
  - case_decide as Hin; [by apply elem_of_nil in Hin|done].
  - change (foldl ?g t (i :: rows)) with (foldl g (g t i) rows).
    rewrite IH, !cell_fill_from.
    destruct (decide (i' = i)) as [->|Hne].
    + rewrite (decide_False (P := i ∈ rows)) by done.
      rewrite (decide_True (P := i ∈ i :: rows)) by left.
      rewrite decide_True by (split; [done|lia]).
      by replace (j' - 0) with j' by lia.
    + rewrite (decide_False (P := i = i' ∧ 0 ≤ j')) by (intros [? _]; congruence).
      destruct (decide (i' ∈ rows)).
      * by rewrite (decide_True (P := i' ∈ i :: rows)) by (by right).
      * by rewrite (decide_False (P := i' ∈ i :: rows))
          by (by intros [?|?]%elem_of_cons).
Qed.

Lemma length_fill (nb : nat → list B) (f : nat → B → A → A) rows : ∀ t,
  length (fill nb f t rows) = length t.
Proof.
  unfold fill. induction rows as [|i rows IH]; intros t; simpl; [done|].
  by rewrite IH, length_fill_from.
Qed.
End cells.
End CellFacts.

Module TorchFacts.
Import Torch.

Lemma getitem_Ok {A} (t : list A) i x : getitem t i = Ok x ↔ t !! i = Some x.
Proof. unfold getitem. destruct (t !! i); naive_solver. Qed.

Lemma getitem_lookup {A} (t : list A) i x : t !! i = Some x → getitem t i = Ok x.
Proof. apply getitem_Ok. Qed.

(** *** [nonzero] on one dimension *)

Lemma elem_of_nonzero1_from k t k' :
  k' ∈ nonzero1_from k t ↔ k ≤ k' ∧ ∃ x, t !! (k' - k) = Some x ∧ x ≠ 0%Z.
Proof.
  revert k. induction t as [|y t IH]; intros k; simpl.
  - rewrite elem_of_nil. naive_solver.
  - assert (Hshift : k' ∈ nonzero1_from (S k) t ↔
                     k < k' ∧ ∃ x, (y :: t) !! (k' - k) = Some x ∧ x ≠ 0%Z).
    { rewrite IH. split.
      - intros (? & x & Hx & ?). split; [lia|]. exists x.
        by replace (k' - k) with (S (k' - S k)) by lia.
      - intros (? & x & Hx & ?). split; [lia|]. exists x.
        by replace (k' - k) with (S (k' - S k)) in Hx by lia. }
    case_bool_decide as Hy.
    + rewrite Hshift. split; [intros [? ?]; split; [lia|done]|].
      intros (Hle & x & Hx & Hne). split; [|by exists x].
      destruct (decide (k = k')) as [->|]; [|lia].
      replace (k' - k') with 0 in Hx by lia. simpl in Hx. congruence.
    + rewrite elem_of_cons, Hshift. split.
      * intros [->|[? ?]]; [|split; [lia|done]].
        split; [done|]. exists y. by replace (k - k) with 0 by lia.
      * intros (Hle & Hx). destruct (decide (k' = k)); [by left|right].
        split; [lia|done].
Qed.

Lemma elem_of_nonzero1 t k :
  k ∈ nonzero1 t ↔ ∃ x, t !! k = Some x ∧ x ≠ 0%Z.
Proof.
  unfold nonzero1. rewrite elem_of_nonzero1_from.
  replace (k - 0) with k by lia. split; [naive_solver|].
  intros ?. split; [lia|done].
Qed.

Lemma nonzero1_from_sorted k t : StronglySorted lt (nonzero1_from k t).
Proof.
  revert k. induction t as [|y t IH]; intros k; simpl; [constructor|].
  case_bool_decide; [apply IH|]. constructor; [apply IH|].
  apply Forall_forall. intros k' Hk'. apply elem_of_nonzero1_from in Hk'. lia.
Qed.

Lemma nonzero1_sorted t : StronglySorted lt (nonzero1 t).
Proof. apply nonzero1_from_sorted. Qed.

Lemma nonzero1_from_length k t :
  length (nonzero1_from k t) = length (nonzero1 t).
Proof.
  unfold nonzero1. generalize 0. revert k.
  induction t as [|y t IH]; intros k k0; simpl; [done|].
  case_bool_decide; simpl; [apply IH|f_equal; apply IH].
Qed.

(** A nonnegative row has at most as many nonzero entries as its sum. *)
Lemma nonzero1_length_le_sum t :
  Forall (λ x, 0 ≤ x)%Z t → (Z.of_nat (length (nonzero1 t)) ≤ sum1 t)%Z.
Proof.
  unfold nonzero1. generalize 0. intros k Ht. revert k.
  induction Ht as [|y t Hy Ht IH]; intros k; simpl; [done|].
  specialize (IH (S k)). case_bool_decide; simpl; lia.
Qed.

Lemma sum1_nonneg t : Forall (λ x, 0 ≤ x)%Z t → (0 ≤ sum1 t)%Z.
Proof. induction 1; simpl; lia. Qed.

(** A row whose sum is not zero has a nonzero entry. *)
Lemma nonzero1_nil_sum t : nonzero1 t = [] → sum1 t = 0%Z.
Proof.
  unfold nonzero1. generalize 0.
  induction t as [|y t IH]; intros k; simpl; [done|].
  case_bool_decide as Hy; [|done]. intros Hnil. rewrite (IH _ Hnil). lia.
Qed.


(** *** [nonzero] on two and three dimensions *)

Lemma filter_fst_pair {A} (i i0 : nat) (l : list A) :
  filter (λ p : nat * A, p.1 = i) (pair i0 <$> l)
  = if decide (i0 = i) then pair i0 <$> l else [].
Proof.
  induction l as [|x l IH]; [by case_decide|].
  rewrite fmap_cons, filter_cons, IH. simpl.
  destruct (decide (i0 = i)); done.
Qed.

Lemma nonzero2_from_filter i0 t i :
  filter (λ p : nat * nat, p.1 = i) (nonzero2_from i0 t)
  = if decide (i0 ≤ i) then
      from_option (λ r, pair i <$> nonzero1 r) [] (t !! (i - i0))
    else [].
Proof.
  revert i0. induction t as [|r t IH]; intros i0; simpl.
  - by case_decide.
  - rewrite filter_app. rewrite (filter_fst_pair i i0 (nonzero1 r)), IH.
    destruct (decide (i0 = i)) as [->|Hne].
    + rewrite decide_False by lia. rewrite decide_True by lia.
      replace (i - i) with 0 by lia. simpl. by rewrite app_nil_r.
    + destruct (decide (i0 ≤ i)).
      * rewrite decide_True by lia.
        by replace (i - i0) with (S (i - S i0)) by lia.
      * by rewrite decide_False by lia.
Qed.

Lemma nonzero2_filter t i :
  filter (λ p : nat * nat, p.1 = i) (nonzero2 t)
  = from_option (λ r, pair i <$> nonzero1 r) [] (t !! i).
Proof.
  unfold nonzero2. rewrite nonzero2_from_filter, decide_True by lia.
  by replace (i - 0) with i by lia.
Qed.

Lemma elem_of_nonzero2_from i0 t i k :
  (i, k) ∈ nonzero2_from i0 t
  ↔ i0 ≤ i ∧ ∃ r, t !! (i - i0) = Some r ∧ k ∈ nonzero1 r.
Proof.
  revert i0. induction t as [|r t IH]; intros i0; simpl.
  - rewrite elem_of_nil. naive_solver.
  - rewrite elem_of_app, list_elem_of_fmap, IH. split.
    + intros [(k' & [= -> ->] & Hk)|(Hle & r' & Hr' & Hk)].
      * split; [done|]. exists r. by replace (i0 - i0) with 0 by lia.
      * split; [lia|]. exists r'.
        by replace (i - i0) with (S (i - S i0)) by lia.
    + intros (Hle & r' & Hr' & Hk).
      destruct (decide (i = i0)) as [->|Hne].
      * left. exists k. split; [done|].
        replace (i0 - i0) with 0 in Hr' by lia. simpl in Hr'. congruence.
      * right. split; [lia|]. exists r'.
        by replace (i - i0) with (S (i - S i0)) in Hr' by lia.
Qed.

Lemma elem_of_nonzero2 t i k :
  (i, k) ∈ nonzero2 t ↔ ∃ r x, t !! i = Some r ∧ r !! k = Some x ∧ x ≠ 0%Z.
Proof.
  unfold nonzero2. rewrite elem_of_nonzero2_from.
  replace (i - 0) with i by lia. setoid_rewrite elem_of_nonzero1.
  split; [naive_solver|]. intros (r & x & ? & ? & ?).
  split; [lia|]. exists r. eauto.
Qed.

Lemma filter_triple b0 b v (l : list (nat * nat)) :
  filter (λ e : nat * nat * nat, e.1.1 = b ∧ e.1.2 = v)
         ((λ ik : nat * nat, (b0, ik.1, ik.2)) <$> l)
  = if decide (b0 = b) then
      (λ ik : nat * nat, (b0, ik.1, ik.2))
        <$> filter (λ p : nat * nat, p.1 = v) l
    else [].
Proof.
  induction l as [|[i k] l IH]; [by case_decide|].
  rewrite fmap_cons, !filter_cons, IH. simpl.
  destruct (decide (b0 = b)) as [->|Hne].
  - destruct (decide (i = v)) as [->|Hv].
    + by rewrite decide_True by done.
    + by rewrite decide_False by tauto.
  - by rewrite decide_False by tauto.
Qed.

Lemma nonzero3_from_filter b0 t b v :
  filter (λ e : nat * nat * nat, e.1.1 = b ∧ e.1.2 = v) (nonzero3_from b0 t)
  = if decide (b0 ≤ b) then
      from_option (λ r, (λ k, (b, v, k)) <$> nonzero1 r) []
                  (t !! (b - b0) ≫= (.!! v))
    else [].
Proof.
  revert b0. induction t as [|m t IH]; intros b0; simpl.
  - by case_decide.
  - rewrite filter_app, IH.
    assert (Hhead :
      filter (λ e : nat * nat * nat, e.1.1 = b ∧ e.1.2 = v)
             ((λ ik : nat * nat, (b0, ik.1, ik.2)) <$> nonzero2 m)
      = if decide (b0 = b) then
          from_option (λ r, (λ k, (b, v, k)) <$> nonzero1 r) [] (m !! v)
        else []).
    { rewrite filter_triple, nonzero2_filter.
      destruct (decide (b0 = b)) as [->|]; [|done].
      destruct (m !! v); simpl; [|done].
      by rewrite <- list_fmap_compose. }
    rewrite Hhead.
    destruct (decide (b0 = b)) as [->|Hne].
    + rewrite decide_False by lia. rewrite decide_True by lia.
      replace (b - b) with 0 by lia. simpl. by rewrite app_nil_r.
    + destruct (decide (b0 ≤ b)).
      * rewrite decide_True by lia.
        by replace (b - b0) with (S (b - S b0)) by lia.
      * by rewrite decide_False by lia.
Qed.
End TorchFacts.

Module MapEdgesFacts.
Import Torch SummationMPNN Cells NeighbourLists TorchFacts CellFacts.

Section rect.
Context {A : Type}.
Implicit Types (t : list (list A)).

Lemma rect_cell n m t i j : rect n m t → is_Some (cell t i j) ↔ i < n ∧ j < m.
Proof.
  intros [Hn Hm]. unfold cell. split.
  - destruct (t !! i) as [r|] eqn:Hr; simpl; [|by intros [? ?]].
    intros Hj%lookup_lt_is_Some. apply lookup_lt_Some in Hr as Hi.
    by rewrite (Forall_lookup_1 _ _ _ _ Hm Hr) in Hj; subst.
  - intros [Hi Hj]. rewrite <- Hn in Hi.
    apply lookup_lt_is_Some in Hi as [r Hr]. rewrite Hr. simpl.
    apply lookup_lt_is_Some. by rewrite (Forall_lookup_1 _ _ _ _ Hm Hr).
Qed.

Lemma rect_write n m (f : A → A) i j t : rect n m t → rect n m (write f i j t).
Proof.
  intros [Hn Hm]. split; [by rewrite length_write|].
  unfold write. apply Forall_alter; [done|].
  intros r _ Hr. by rewrite length_alter.
Qed.

Lemma rect_replicate n m (x : A) : rect n m (replicate n (replicate m x)).
Proof.
  split; [apply length_replicate|].
  apply Forall_replicate, length_replicate.
Qed.

Lemma cell_replicate n m (x : A) i j :
  cell (replicate n (replicate m x)) i j
  = if decide (i < n ∧ j < m) then Some x else None.
Proof.
  unfold cell. case_decide as H.
  - destruct H. rewrite lookup_replicate_2 by done. simpl.
    by apply lookup_replicate_2.
  - destruct (decide (i < n)).
    + rewrite lookup_replicate_2 by done. simpl.
      apply lookup_replicate_None. lia.
    + rewrite (proj1 (lookup_replicate_None n _ i)) by lia. done.
Qed.

Lemma insert_as_alter (f : A → A) (l : list A) i x :
  l !! i = Some x → <[i := f x]> l = alter f i l.
Proof.
  intros Hx. rewrite list_insert_alter.
  apply list_alter_ext; [|done]. intros y ?. congruence.
Qed.
End rect.

Section foldM_Forall.
Context {A B : Type}.

Lemma foldM_Ok_Forall (I : B → Prop) (Q : A → Prop)
    (f : B → A → result B) l :
  (∀ b x b', x ∈ l → I b → f b x = Ok b' → Q x ∧ I b') →
  ∀ b b', I b → foldM f b l = Ok b' → Forall Q l ∧ I b'.
Proof.
  induction l as [|x l IH]; intros Hstep b b' Hb Hf; simpl in *.
  - by inversion Hf; subst.
  - destruct (f b x) as [b1|e] eqn:Hx; simpl in Hf; [|done].
    destruct (Hstep b x b1) as [HQ Hb1]; [left|done|done|].
    destruct (IH (λ b x b' Hin, Hstep b x b' (list_elem_of_further _ _ _ Hin))
                b1 b' Hb1 Hf) as [HQs Hb'].
    split; [by constructor|done].
Qed.
End foldM_Forall.

(** *** One write *)

Lemma setitem_row_Ok t i j row t' :
  setitem_row t i j row = Ok t'
  ↔ ∃ old new, cell t i j = Some old
      ∧ broadcast_row (length old) row = Ok new
      ∧ t' = write (bcast row) i j t.
Proof.
  unfold setitem_row, getitem, cell, write.
  destruct (t !! i) as [m|] eqn:Hm; simpl;
    [|split; [done|by intros (? & ? & ? & _)]].
  destruct (m !! j) as [old|] eqn:Hold; simpl;
    [|split; [done|by intros (? & ? & ? & _)]].
  assert (Heq : ∀ new, broadcast_row (length old) row = Ok new →
    <[i := <[j := new]> m]> t = alter (alter (bcast row) j) i t).
  { intros new Hnew.
    rewrite <- (insert_as_alter (alter (bcast row) j) t i m Hm).
    rewrite <- (insert_as_alter (bcast row) m j old Hold).
    unfold bcast. by rewrite Hnew. }
  destruct (broadcast_row (length old) row) as [new|e] eqn:Hnew; simpl.
  - rewrite (Heq new eq_refl). split.
    + intros [= <-]. by exists old, new.
    + by intros (? & ? & _ & _ & ->).
  - split; [done|]. intros (? & ? & [= <-] & ? & _). congruence.
Qed.

Lemma setitem_Ok t i j x t' :
  setitem t i j x = Ok t'
  ↔ is_Some (cell t i j) ∧ t' = write (λ _, x) i j t.
Proof.
  unfold setitem, getitem, cell, write.
  destruct (t !! i) as [r|] eqn:Hr; simpl; [|split; [done|by intros [[? ?] _]]].
  destruct (r !! j) as [old|] eqn:Hold; simpl;
    [|split; [done|by intros [[? ?] _]]].
  rewrite (insert_as_alter (λ _, x) r j old Hold).
  rewrite (insert_as_alter (alter (λ _, x) j) t i r Hr).
  split; [by intros [= <-]|by intros [_ ->]].
Qed.

Lemma map_edge_Ok nodes edges i b v ng ed mk j k ng' ed' mk' :
  map_edge nodes edges i b v (ng, ed, mk) (j, k) = Ok (ng', ed', mk')
  ↔ ∃ row erow,
      cell nodes b k = Some row
      ∧ (g ← edges !! b; cell g v k) = Some erow
      ∧ setitem_row ng i j row = Ok ng'
      ∧ setitem_row ed i j erow = Ok ed'
      ∧ setitem mk i j 1%Z = Ok mk'.
Proof.
  split.
  - unfold map_edge. intros H.
    destruct (getitem nodes b) as [m|] eqn:E1; simpl in H; [|done].
    destruct (getitem m k) as [row|] eqn:E2; simpl in H; [|done].
    destruct (setitem_row ng i j row) as [ng1|] eqn:E3; simpl in H; [|done].
    destruct (getitem edges b) as [g|] eqn:E4; simpl in H; [|done].
    destruct (getitem g v) as [m'|] eqn:E5; simpl in H; [|done].
    destruct (getitem m' k) as [erow|] eqn:E6; simpl in H; [|done].
    destruct (setitem_row ed i j erow) as [ed1|] eqn:E7; simpl in H; [|done].
    destruct (setitem mk i j 1%Z) as [mk1|] eqn:E8; simpl in H; [|done].
    injection H as <- <- <-. exists row, erow.
    apply getitem_Ok in E1, E2, E4, E5, E6. unfold cell.
    rewrite E1, E4. simpl. rewrite E2, E5. simpl. by rewrite E6.
  - intros (row & erow & Hrow & Herow & H1 & H2 & H3).
    unfold map_edge. unfold cell in Hrow, Herow.
    destruct (nodes !! b) as [m|] eqn:E1; [|done]. simpl in Hrow.
    destruct (edges !! b) as [g|] eqn:E4; [|done]. simpl in Herow.
    destruct (g !! v) as [m'|] eqn:E5; [|done]. simpl in Herow.
    rewrite (getitem_lookup _ _ _ E1). simpl.
    rewrite (getitem_lookup _ _ _ Hrow). simpl. rewrite H1. simpl.
    rewrite (getitem_lookup _ _ _ E4). simpl.
    rewrite (getitem_lookup _ _ _ E5). simpl.
    rewrite (getitem_lookup _ _ _ Herow). simpl. rewrite H2. simpl.
    by rewrite H3.
Qed.
(** *** The loops write what [fill] writes *)

Section loops.
Context (nodes : tensor3) (edges : tensor4).

Lemma inner_loop_Ok i b v ks (bufs bufs' : buffers) :
  foldM (map_edge nodes edges i b v) bufs (enumerate ks) = Ok bufs' →
  bufs'.1.1
    = fill_from (λ k, bcast (default [] (cell nodes b k))) i 0 bufs.1.1 ks
  ∧ bufs'.1.2
    = fill_from (λ k, bcast (default [] (g ← edges !! b; cell g v k)))
                i 0 bufs.1.2 ks
  ∧ bufs'.2 = fill_from (λ _ _, 1%Z) i 0 bufs.2 ks.
Proof.
  intros Hf. unfold fill_from, enumerate in *. split_and!.
  - refine (foldM_Ok_foldl (λ b : buffers, b.1.1)
      (λ t jk, write (bcast (default [] (cell nodes b jk.2))) i jk.1 t)
      _ _ _ _ _ Hf).
    intros [[ng ed] mk] [j k] [[ng' ed'] mk'] _.
    intros (row & erow & Hrow & _ & H1 & _)%map_edge_Ok.
    apply setitem_row_Ok in H1 as (? & ? & _ & _ & ->).
    simpl. by rewrite Hrow.
  - refine (foldM_Ok_foldl (λ b : buffers, b.1.2)
      (λ t jk, write (bcast (default [] (g ← edges !! b; cell g v jk.2)))
                     i jk.1 t)
      _ _ _ _ _ Hf).
    intros [[ng ed] mk] [j k] [[ng' ed'] mk'] _.
    intros (row & erow & _ & Herow & _ & H2 & _)%map_edge_Ok.
    apply setitem_row_Ok in H2 as (? & ? & _ & _ & ->).
    simpl. by rewrite Herow.
  - refine (foldM_Ok_foldl (λ b : buffers, b.2)
      (λ t jk, write (λ _, 1%Z) i jk.1 t) _ _ _ _ _ Hf).
    intros [[ng ed] mk] [j k] [[ng' ed'] mk'] _.
    intros (row & erow & _ & _ & _ & _ & H3)%map_edge_Ok.
    by apply setitem_Ok in H3 as [_ ->].
Qed.

Lemma map_node_Ok (bufs bufs' : buffers) i :
  map_node nodes edges (bidc edges) (nidc edges) (eb edges) (en edges)
           (ek edges) bufs i = Ok bufs' →
  i < length (node_batch edges)
  ∧ bufs'.1.1
    = fill_from (λ k, bcast (node_row nodes edges i k)) i 0 bufs.1.1
                (nb edges i)
  ∧ bufs'.1.2
    = fill_from (λ k, bcast (edge_row edges i k)) i 0 bufs.1.2 (nb edges i)
  ∧ bufs'.2 = fill_from (λ _ _, 1%Z) i 0 bufs.2 (nb edges i).
Proof.
  unfold map_node. intros H.
  destruct (getitem (nidc edges) i) as [v|] eqn:Hv; simpl in H; [|done].
  destruct (getitem (bidc edges) i) as [b|] eqn:Hb; simpl in H; [|done].
  apply getitem_Ok in Hv, Hb.
  split.
  { apply lookup_lt_Some in Hb. unfold bidc in Hb.
    by rewrite length_fmap in Hb. }
  unfold nb, node_row, edge_row.
  rewrite (list_lookup_total_correct _ _ _ Hv).
  rewrite (list_lookup_total_correct _ _ _ Hb).
  by apply inner_loop_Ok.
Qed.

Lemma outer_loop_Ok rows (bufs bufs' : buffers) :
  foldM (map_node nodes edges (bidc edges) (nidc edges) (eb edges)
                  (en edges) (ek edges)) bufs rows = Ok bufs' →
  bufs'.1.1 = fill_nghbs nodes edges bufs.1.1 rows
  ∧ bufs'.1.2 = fill_edges edges bufs.1.2 rows
  ∧ bufs'.2 = fill_mask edges bufs.2 rows.
Proof.
  intros Hf. unfold fill_nghbs, fill_edges, fill_mask, fill. split_and!.
  - refine (foldM_Ok_foldl (λ b : buffers, b.1.1) _ _ _ _ _ _ Hf).
    intros ???? H. by apply map_node_Ok in H as (_ & -> & _).
  - refine (foldM_Ok_foldl (λ b : buffers, b.1.2) _ _ _ _ _ _ Hf).
    intros ???? H. by apply map_node_Ok in H as (_ & _ & -> & _).
  - refine (foldM_Ok_foldl (λ b : buffers, b.2) _ _ _ _ _ _ Hf).
    intros ???? H. by apply map_node_Ok in H as (_ & _ & _ & ->).
Qed.
End loops.

(** *** The neighbours that the loop enumerates *)

Lemma neighbors_idc_filter (l : list (nat * nat * nat)) b v :
  neighbors_idc ((λ t : nat * nat * nat, t.1.1) <$> l)
                ((λ t : nat * nat * nat, t.1.2) <$> l)
                ((λ t : nat * nat * nat, t.2) <$> l) b v
  = (λ t : nat * nat * nat, t.2)
      <$> filter (λ e : nat * nat * nat, e.1.1 = b ∧ e.1.2 = v) l.
Proof.
  unfold neighbors_idc, masked_select.
  induction l as [|[[b' v'] k] l IH]; [done|].
  rewrite !fmap_cons. cbn [zip_with zip fst snd].
  rewrite !filter_cons. cbn [fst snd].
  destruct (decide (b' = b)) as [->|Hb].
  - rewrite bool_decide_true by done.
    destruct (decide (v' = v)) as [->|Hv].
    + rewrite bool_decide_true by done. cbn [andb].
      rewrite decide_True by done. rewrite decide_True by done.
      rewrite !fmap_cons. cbn [fst snd]. f_equal. apply IH.
    + rewrite (bool_decide_false (v' = v)) by done. cbn [andb].
      rewrite decide_False by done. rewrite decide_False by tauto. apply IH.
  - rewrite (bool_decide_false (b' = b)) by done. cbn [andb].
    rewrite decide_False by done. rewrite decide_False by tauto. apply IH.
Qed.

Lemma node_batch_lookup edges i b v :
  node_batch edges !! i = Some (b, v)
  ↔ bidc edges !! i = Some b ∧ nidc edges !! i = Some v.
Proof.
  unfold bidc, nidc. rewrite !list_lookup_fmap.
  destruct (node_batch edges !! i) as [[b' v']|]; simpl; [|naive_solver].
  split; [by intros [= -> ->]|by intros [[= ->] [= ->]]].
Qed.

Lemma adj_row edges b v s :
  sum_last3 (adj edges) !! b ≫= (.!! v) = Some s
  ↔ ∃ row, cell (adj edges) b v = Some row ∧ s = sum1 row.
Proof.
  unfold cell, sum_last3, sum_last2. rewrite list_lookup_fmap.
  destruct (adj edges !! b) as [m|]; simpl; [|naive_solver].
  rewrite list_lookup_fmap. destruct (m !! v) as [row|]; simpl; naive_solver.
Qed.

(** The [i]-th batch node is a node whose adjacency row has a nonzero sum,
    and the loop enumerates the nonzero entries of that row. *)
Lemma nb_spec edges i b v :
  node_batch edges !! i = Some (b, v) →
  ∃ row, cell (adj edges) b v = Some row ∧ sum1 row ≠ 0%Z
         ∧ nb edges i = nonzero1 row.
Proof.
  intros Hi. pose proof Hi as [Hb Hv]%node_batch_lookup.
  apply list_elem_of_lookup_2, elem_of_nonzero2 in Hi
    as (r & x & Hr & Hx & Hne).
  assert (sum_last3 (adj edges) !! b ≫= (.!! v) = Some x) as Hs.
  { by rewrite Hr. }
  apply adj_row in Hs as (row & Hrow & ->).
  exists row. split_and!; [done..|].
  unfold nb, eb, en, ek, edge_batch, nonzero3.
  rewrite (list_lookup_total_correct _ _ _ Hb).
  rewrite (list_lookup_total_correct _ _ _ Hv).
  rewrite neighbors_idc_filter, nonzero3_from_filter.
  rewrite decide_True by lia. replace (b - 0) with b by lia.
  unfold cell in Hrow. rewrite Hrow. simpl.
  rewrite <- list_fmap_compose. apply list_fmap_id.
Qed.

(** Conversely every node whose row sum is not zero is in the batch. *)
Lemma node_batch_elem edges b v :
  (b, v) ∈ node_batch edges
  ↔ ∃ row, cell (adj edges) b v = Some row ∧ sum1 row ≠ 0%Z.
Proof.
  unfold node_batch. rewrite elem_of_nonzero2. split.
  - intros (r & x & Hr & Hx & Hne).
    assert (sum_last3 (adj edges) !! b ≫= (.!! v) = Some x) as Hs.
    { by rewrite Hr. }
    apply adj_row in Hs as (row & Hrow & ->). by exists row.
  - intros (row & Hrow & Hne).
    assert (sum_last3 (adj edges) !! b ≫= (.!! v) = Some (sum1 row)) as Hs.
    { apply adj_row. by exists row. }
    destruct (sum_last3 (adj edges) !! b) as [r|]; [|done].
    exists r, (sum1 row). done.
Qed.

(** *** Every write of a loop that returns is in range *)

Section range.
Context (nodes : tensor3) (edges : tensor4).

Lemma inner_loop_range n D i b v ks (bufs bufs' : buffers) :
  rect n D bufs.2 →
  foldM (map_edge nodes edges i b v) bufs (enumerate ks) = Ok bufs' →
  length ks ≤ D ∧ rect n D bufs'.2.
Proof.
  intros Hrect Hf.
  destruct (foldM_Ok_Forall (λ b : buffers, rect n D b.2)
              (λ jk : nat * nat, jk.1 < D)
              (map_edge nodes edges i b v) (enumerate ks)) with
    (b := bufs) (b' := bufs') as [HQ HI]; [|done|done|].
  - intros [[ng ed] mk] [j k] [[ng' ed'] mk'] _ Hmk.
    intros (row & erow & _ & _ & _ & _ & H3)%map_edge_Ok.
    apply setitem_Ok in H3 as [Hcell ->]. simpl in *.
    apply (rect_cell n D) in Hcell as [_ ?]; [|done].
    split; [done|by apply rect_write].
  - split; [|done]. destruct (decide (length ks = 0)) as [->|Hne]; [lia|].
    destruct (lookup_lt_is_Some_2 ks (length ks - 1)) as [k Hk]; [lia|].
    assert (enumerate ks !! (length ks - 1) = Some (length ks - 1, k)) as He.
    { unfold enumerate. by rewrite list_lookup_imap, Hk. }
    pose proof (Forall_lookup_1 _ _ _ _ HQ He) as Hlt. simpl in Hlt. lia.
Qed.

Lemma outer_loop_range n D rows (bufs bufs' : buffers) :
  rect n D bufs.2 →
  foldM (map_node nodes edges (bidc edges) (nidc edges) (eb edges)
                  (en edges) (ek edges)) bufs rows = Ok bufs' →
  Forall (λ i, length (nb edges i) ≤ D) rows.
Proof.
  intros Hrect Hf.
  eapply (foldM_Ok_Forall (λ b : buffers, rect n D b.2)); [|done|done].
  intros b0 i b1 _ Hb0. unfold map_node. intros H.
  destruct (getitem (nidc edges) i) as [v|] eqn:Hv; simpl in H; [|done].
  destruct (getitem (bidc edges) i) as [b|] eqn:Hb; simpl in H; [|done].
  apply getitem_Ok in Hv, Hb. unfold nb.
  rewrite (list_lookup_total_correct _ _ _ Hv).
  rewrite (list_lookup_total_correct _ _ _ Hb).
  by eapply inner_loop_range.
Qed.
End range.

Import MapEdgesPost.

Lemma map_edges_Ok a nodes edges nl :
  map_edges a nodes edges = Ok nl →
  ∃ D, map_edges_post a nodes edges nl D.
Proof.
  unfold map_edges. intros H.
  fold (adj edges) in H. fold (edge_batch edges) in H.
  fold (eb edges) (en edges) (ek edges) (node_batch edges) in H.
  fold (bidc edges) (nidc edges) in H.
  assert (length (bidc edges) = length (node_batch edges)) as Hlen
    by apply length_fmap.
  rewrite Hlen in H.
  destruct (tensor_max _) as [d|] eqn:Hmax; simpl in H; [|done].
  unfold zeros3, zeros2 in H.
  case_bool_decide as Hd; simpl in H; [done|].
  destruct (foldM _ _ _) as [bufs|] eqn:Hf; simpl in H; [|done].
  injection H as <-. exists (Z.to_nat d).
  pose proof (outer_loop_Ok _ _ _ _ _ Hf) as (H1 & H2 & H3).
  constructor; simpl; try done.
  - rewrite Z2Nat.id by lia. done.
  - lia.
  - intros i Hi.
    eapply outer_loop_range in Hf; [|apply rect_replicate].
    eapply Forall_forall in Hf; [done|]. apply elem_of_seq. lia.
Qed.

(** *** Cells of the returned buffers *)

Section rect_fill.
Context {A B : Type}.

Lemma rect_fill_from n m (f : B → A → A) i ks : ∀ off (t : list (list A)),
  rect n m t → rect n m (fill_from f i off t ks).
Proof.
  unfold fill_from. induction ks as [|k ks IH]; intros off t Ht; [done|].
  rewrite imap_cons. cbn [foldl].
  rewrite (imap_ext _ (λ j k, (S off + j, k))); last first.
  { intros ???. simpl. f_equal. lia. }
  apply IH. by apply rect_write.
Qed.

Lemma rect_fill n m (nb : nat → list B) (f : nat → B → A → A) rows :
  ∀ t : list (list A), rect n m t → rect n m (fill nb f t rows).
Proof.
  unfold fill. induction rows as [|i rows IH]; intros t Ht; [done|].
  cbn [foldl]. apply IH. by apply rect_fill_from.
Qed.
End rect_fill.

Section post.
Context (a : attrs) (nodes : tensor3) (edges : tensor4) (nl : batch)
        (D : nat) (Hpost : map_edges_post a nodes edges nl D).

Lemma post_batch_size :
  length (node_batch_batch_idc nl) = length (node_batch edges).
Proof. rewrite (post_bidc _ _ _ _ _ Hpost). apply length_fmap. Qed.

Lemma post_mask_rect :
  rect (length (node_batch edges)) D (node_batch_node_nghb_mask nl).
Proof.
  rewrite (post_mask _ _ _ _ _ Hpost).
  apply rect_fill, rect_replicate.
Qed.

Lemma post_mask_cell i j :
  i < length (node_batch edges) → j < D →
  cell (node_batch_node_nghb_mask nl) i j
  = Some (if decide (j < length (nb edges i)) then 1%Z else 0%Z).
Proof.
  intros Hi Hj. rewrite (post_mask _ _ _ _ _ Hpost). unfold fill_mask.
  rewrite cell_fill by apply NoDup_seq.
  rewrite decide_True by (apply elem_of_seq; lia).
  rewrite cell_replicate, decide_True by done.
  destruct (nb edges i !! j) as [k|] eqn:Hk.
  - apply lookup_lt_Some in Hk. by rewrite decide_True by done.
  - apply lookup_ge_None in Hk. by rewrite decide_False by lia.
Qed.

Lemma post_nghbs_cell i j :
  i < length (node_batch edges) → j < D →
  cell (node_batch_node_nghbs nl) i j
  = Some match nb edges i !! j with
         | Some k => bcast (node_row nodes edges i k)
                           (replicate (hidden_node_features a) 0%Z)
         | None => replicate (hidden_node_features a) 0%Z
         end.
Proof.
  intros Hi Hj. rewrite (post_nghbs _ _ _ _ _ Hpost). unfold fill_nghbs.
  rewrite cell_fill by apply NoDup_seq.
  rewrite decide_True by (apply elem_of_seq; lia).
  rewrite cell_replicate, decide_True by done.
  by destruct (nb edges i !! j).
Qed.

Lemma post_edges_cell i j :
  i < length (node_batch edges) → j < D →
  cell (node_batch_edges nl) i j
  = Some match nb edges i !! j with
         | Some k => bcast (edge_row edges i k)
                           (replicate (edge_features a) 0%Z)
         | None => replicate (edge_features a) 0%Z
         end.
Proof.
  intros Hi Hj. rewrite (post_edges _ _ _ _ _ Hpost). unfold fill_edges.
  rewrite cell_fill by apply NoDup_seq.
  rewrite decide_True by (apply elem_of_seq; lia).
  rewrite cell_replicate, decide_True by done.
  by destruct (nb edges i !! j).
Qed.
End post.

(** *** The neighbours of a node are the nonzero entries of its row *)

Import Graph.

Lemma is_neighbours_nonzero1 row : is_neighbours row (nonzero1 row).
Proof. split; [apply nonzero1_sorted|apply elem_of_nonzero1]. Qed.

Lemma StronglySorted_lt_NoDup (l : list nat) : StronglySorted lt l → NoDup l.
Proof.
  induction 1 as [|x l _ IH Hx]; constructor; [|done].
  intros Hin. eapply Forall_forall in Hx; [|done]. lia.
Qed.

Lemma is_neighbours_unique row nbrs :
  is_neighbours row nbrs → nbrs = nonzero1 row.
Proof.
  intros [Hs Hin]. destruct (is_neighbours_nonzero1 row) as [Hs' Hin'].
  apply (StronglySorted_unique_strong lt); [|done|done|].
  - intros. lia.
  - apply NoDup_Permutation; [by apply StronglySorted_lt_NoDup..|].
    intros k. by rewrite Hin, Hin'.
Qed.

(** *** [map_edges] returns on a conforming batch *)

Lemma tensor_max_Ok t :
  t ≠ [] → ∃ d, tensor_max t = Ok d ∧ Forall (λ x, x ≤ d)%Z t ∧ d ∈ t.
Proof.
  destruct t as [|x t]; [done|]. intros _. simpl.
  exists (foldr Z.max x t). split; [done|].
  induction t as [|y t [IH1 IH2]]; simpl.
  - split; [by repeat constructor|left].
  - apply Forall_cons in IH1 as [Hx Ht]. split.
    + repeat constructor; [lia..|].
      eapply Forall_impl; [done|]. simpl. lia.
    + destruct (Z.max_spec y (foldr Z.max x t)) as [[_ ->]|[_ ->]].
      * apply elem_of_cons in IH2 as [->|?]; [left|right; by right].
      * right. left.
Qed.

Lemma broadcast_row_same n row : length row = n → broadcast_row n row = Ok row.
Proof. intros. unfold broadcast_row. by rewrite bool_decide_true. Qed.

Lemma bcast_same row old : length row = length old → bcast row old = row.
Proof. intros. unfold bcast. by rewrite broadcast_row_same. Qed.

Lemma rows_write (t : tensor3) n D H i j row :
  rect n D t → (∀ i j r, cell t i j = Some r → length r = H) →
  length row = H →
  rect n D (write (bcast row) i j t)
  ∧ ∀ i' j' r, cell (write (bcast row) i j t) i' j' = Some r → length r = H.
Proof.
  intros Hrect Hrows Hrow. split; [by apply rect_write|].
  intros i' j' r. rewrite cell_write. case_decide as Hij; [|apply Hrows].
  destruct (cell t i j) as [old|] eqn:Hold; [|done]. simpl.
  intros [= <-]. apply Hrows in Hold. rewrite bcast_same; congruence.
Qed.

Lemma map_edge_total nodes edges n D H E i b v j k row erow bufs :
  bufs_wf n D H E bufs → i < n → j < D →
  cell nodes b k = Some row → length row = H →
  (g ← edges !! b; cell g v k) = Some erow → length erow = E →
  ∃ bufs', map_edge nodes edges i b v bufs (j, k) = Ok bufs'
           ∧ bufs_wf n D H E bufs'.
Proof.
  destruct bufs as [[ng ed] mk].
  intros ([Hng Hngr] & [Hed Hedr] & Hmk) Hi Hj Hrow Hlen Herow Helen.
  simpl in *.
  destruct (proj2 (rect_cell n D ng i j Hng)) as [old Hold]; [done|].
  destruct (proj2 (rect_cell n D ed i j Hed)) as [eold Heold]; [done|].
  exists (write (bcast row) i j ng, write (bcast erow) i j ed,
          write (λ _, 1%Z) i j mk).
  split.
  - apply map_edge_Ok. exists row, erow. split_and!; [done..| | |].
    + apply setitem_row_Ok. exists old, row. split_and!; [done| |done].
      apply broadcast_row_same. apply Hngr in Hold. congruence.
    + apply setitem_row_Ok. exists eold, erow. split_and!; [done| |done].
      apply broadcast_row_same. apply Hedr in Heold. congruence.
    + apply setitem_Ok. split; [|done]. by apply (rect_cell n D).
  - split_and!; simpl.
    + by apply (rows_write ng n D H).
    + by apply (rows_write ng n D H).
    + by apply (rows_write ed n D E).
    + by apply (rows_write ed n D E).
    + by apply rect_write.
Qed.

(** The adjacency rows of a well-shaped edge tensor. *)
Lemma adj_cell_shape B N K E edges b v row :
  shape4 B N K E edges → cell (adj edges) b v = Some row →
  b < B ∧ v < N ∧ length row = K
  ∧ ∀ k x, row !! k = Some x →
      ∃ erow, (g ← edges !! b; cell g v k) = Some erow
              ∧ length erow = E ∧ x = sum1 erow.
Proof.
  intros [HB Hg]. unfold cell, adj, sum_last4, sum_last3, sum_last2.
  rewrite list_lookup_fmap.
  destruct (edges !! b) as [g|] eqn:Eg; simpl; [|done].
  rewrite list_lookup_fmap.
  destruct (g !! v) as [m|] eqn:Em; simpl; [|done]. intros [= <-].
  pose proof (Forall_lookup_1 _ _ _ _ Hg Eg) as [HN Hm].
  pose proof (Forall_lookup_1 _ _ _ _ Hm Em) as [HK He].
  apply lookup_lt_Some in Eg as Hb. apply lookup_lt_Some in Em as Hv.
  split_and!; [lia|lia|by rewrite length_fmap|].
  intros k x. rewrite list_lookup_fmap.
  destruct (m !! k) as [erow|] eqn:Ek; simpl; [|done]. intros [= <-].
  exists erow. split_and!; [done| |done].
  apply (Forall_lookup_1 _ _ _ _ He Ek).
Qed.

Lemma nodes_cell_shape B N H (nodes : tensor3) b k :
  shape3 B N H nodes → b < B → k < N →
  ∃ row, cell nodes b k = Some row ∧ length row = H.
Proof.
  intros [HB Hm] Hb Hk. unfold cell.
  destruct (lookup_lt_is_Some_2 nodes b) as [m Em]; [lia|].
  pose proof (Forall_lookup_1 _ _ _ _ Hm Em) as [HN Hr].
  destruct (lookup_lt_is_Some_2 m k) as [row Er]; [lia|].
  exists row. rewrite Em. simpl. split; [done|].
  apply (Forall_lookup_1 _ _ _ _ Hr Er).
Qed.

Lemma adj_cell_nonneg edges b v row :
  nonnegative (adj edges) → cell (adj edges) b v = Some row →
  Forall (λ x, 0 ≤ x)%Z row.
Proof.
  unfold nonnegative, cell. intros Hnn.
  destruct (adj edges !! b) as [m|] eqn:Em; simpl; [|done]. intros Er.
  eapply Forall_lookup_1; [|done]. eapply Forall_lookup_1; done.
Qed.

Lemma row_sum_in_degrees edges b v row :
  cell (adj edges) b v = Some row →
  sum1 row ∈ view_flat (sum_last3 (adj edges)).
Proof.
  unfold cell, view_flat. intros Hrow.
  destruct (adj edges !! b) as [m|] eqn:Em; simpl in Hrow; [|done].
  apply list_elem_of_join. exists (sum_last2 m). split.
  - unfold sum_last2. apply list_elem_of_fmap. exists row.
    split; [done|]. by eapply list_elem_of_lookup_2.
  - unfold sum_last3. apply list_elem_of_fmap. exists m.
    split; [done|]. by eapply list_elem_of_lookup_2.
Qed.

Lemma map_edges_total_wf a nodes edges B N :
  0 < B → 0 < N →
  shape3 B N (hidden_node_features a) nodes →
  shape4 B N N (edge_features a) edges →
  nonnegative (adj edges) →
  ∃ nl, map_edges a nodes edges = Ok nl
        ∧ bufs_wf (length (node_batch_batch_idc nl))
                  (Z.to_nat (max_node_degree nl))
                  (hidden_node_features a) (edge_features a)
                  (node_batch_node_nghbs nl, node_batch_edges nl,
                   node_batch_node_nghb_mask nl).
Proof.
  intros HB HN Hnodes Hedges Hnn.
  set (H := hidden_node_features a) in *. set (E := edge_features a) in *.
  (* the degrees are a tensor with elements *)
  assert (∃ row0, cell (adj edges) 0 0 = Some row0) as [row0 Hrow0].
  { destruct Hedges as [HlenB Hg].
    destruct (lookup_lt_is_Some_2 edges 0) as [g Eg]; [lia|].
    pose proof (Forall_lookup_1 _ _ _ _ Hg Eg) as [HlenN Hm].
    destruct (lookup_lt_is_Some_2 g 0) as [m Em]; [lia|].
    exists (sum1 <$> m). unfold cell, adj, sum_last4, sum_last3.
    rewrite list_lookup_fmap, Eg. simpl. by rewrite list_lookup_fmap, Em. }
  destruct (tensor_max_Ok (view_flat (sum_last3 (adj edges))))
    as (d & Hmax & Hle & _).
  { apply row_sum_in_degrees in Hrow0. intros Hnil.
    rewrite Hnil in Hrow0. by apply elem_of_nil in Hrow0. }
  assert (0 ≤ d)%Z as Hd.
  { pose proof (sum1_nonneg row0 (adj_cell_nonneg _ _ _ _ Hnn Hrow0)).
    apply row_sum_in_degrees in Hrow0.
    eapply Forall_forall in Hle; [|done]. simpl in Hle. lia. }
  unfold map_edges.
  fold (adj edges). fold (edge_batch edges).
  fold (eb edges) (en edges) (ek edges) (node_batch edges).
  fold (bidc edges) (nidc edges).
  assert (length (bidc edges) = length (node_batch edges)) as Hlen
    by apply length_fmap.
  rewrite Hlen, Hmax. simpl. unfold zeros3, zeros2.
  rewrite bool_decide_false by lia. simpl.
  set (n := length (node_batch edges)). set (D := Z.to_nat d).
  fold H E.
  destruct (foldM_Ok_inv (bufs_wf n D H E)
    (map_node nodes edges (bidc edges) (nidc edges) (eb edges) (en edges)
       (ek edges)) (seq 0 n)) with
    (b := (replicate n (replicate D (replicate H 0%Z)),
           replicate n (replicate D (replicate E 0%Z)),
           replicate n (replicate D 0%Z))) as (bufs & -> & Hwf);
    [| |eexists; split; [done|]; simpl; rewrite Hlen;
        by destruct bufs as [[??]?]].
  2:{ split_and!; simpl; try apply rect_replicate.
      - intros i j r. rewrite cell_replicate. case_decide; [|done].
        intros [= <-]. apply length_replicate.
      - intros i j r. rewrite cell_replicate. case_decide; [|done].
        intros [= <-]. apply length_replicate. }
  intros bufs i [_ Hi]%elem_of_seq Hwf. simpl in Hi.
  destruct (lookup_lt_is_Some_2 (node_batch edges) i) as [[b v] Hbv];
    [done|].
  pose proof Hbv as [Hb Hv]%node_batch_lookup.
  destruct (nb_spec _ _ _ _ Hbv) as (row & Hrow & Hsum & Hnb).
  unfold map_node.
  rewrite (getitem_lookup _ _ _ Hv), (getitem_lookup _ _ _ Hb). simpl.
  assert (neighbors_idc (eb edges) (en edges) (ek edges) b v = nonzero1 row)
    as ->.
  { rewrite <- Hnb. unfold nb.
    by rewrite (list_lookup_total_correct _ _ _ Hv),
               (list_lookup_total_correct _ _ _ Hb). }
  destruct (adj_cell_shape _ _ _ _ _ _ _ _ Hedges Hrow)
    as (HbB & HvN & Hrowlen & Hrowcells).
  assert (length (nonzero1 row) ≤ D) as Hdeg.
  { pose proof (nonzero1_length_le_sum row
                  (adj_cell_nonneg _ _ _ _ Hnn Hrow)) as Hcount.
    apply row_sum_in_degrees in Hrow.
    eapply Forall_forall in Hle; [|done]. simpl in Hle.
    unfold D. lia. }
  apply foldM_Ok_inv; [|done].
  intros bufs0 [j k] Hjk Hwf0.
  apply elem_of_lookup_imap in Hjk as (j' & k' & [= -> ->] & Hk).
  apply lookup_lt_Some in Hk as Hj.
  apply list_elem_of_lookup_2, elem_of_nonzero1 in Hk as (x & Hx & _).
  destruct (Hrowcells _ _ Hx) as (erow & Herow & Helen & _).
  apply lookup_lt_Some in Hx as HkN. rewrite Hrowlen in HkN.
  destruct (nodes_cell_shape _ _ _ _ b k' Hnodes HbB HkN)
    as (nrow & Hnrow & Hnlen).
  eapply map_edge_total; [done|done|lia|done..].
Qed.

Lemma map_edges_total a nodes edges B N :
  0 < B → 0 < N →
  shape3 B N (hidden_node_features a) nodes →
  shape4 B N N (edge_features a) edges →
  nonnegative (adj edges) →
  ∃ nl, map_edges a nodes edges = Ok nl.
Proof.
intros HB HN Hnodes Hedges Hnn.
destruct (map_edges_total_wf a nodes edges B N) as (nl & Hnl & _); [done..|].
by exists nl.
Qed.

(** *** [map_edges] raises when the node rows cannot be copied *)

Lemma nodes_cell_length B N F (nodes : tensor3) b k row :
  shape3 B N F nodes → cell nodes b k = Some row → length row = F.
Proof.
  intros [_ Hm]. unfold cell.
  destruct (nodes !! b) as [m|] eqn:Em; simpl; [|done]. intros Er.
  pose proof (Forall_lookup_1 _ _ _ _ Hm Em) as [_ Hr].
  apply (Forall_lookup_1 _ _ _ _ Hr Er).
Qed.

Lemma broadcast_row_Ok n row new :
  broadcast_row n row = Ok new → length row = n ∨ length row = 1.
Proof.
  unfold broadcast_row. case_bool_decide; [by left|].
  destruct row as [|x [|??]]; [done|by right|done].
Qed.

Lemma map_edges_mismatch a nodes edges B N F :
  shape3 B N F nodes →
  F ≠ hidden_node_features a → F ≠ 1 →
  node_batch edges ≠ [] →
  ∃ e, map_edges a nodes edges = Raise e.
Proof.
  intros Hnodes HF HF1 Hsel.
  destruct (map_edges a nodes edges) as [nl|e] eqn:Hm; [exfalso|by eexists].
  unfold map_edges in Hm.
  fold (adj edges) in Hm. fold (edge_batch edges) in Hm.
  fold (eb edges) (en edges) (ek edges) (node_batch edges) in Hm.
  fold (bidc edges) (nidc edges) in Hm.
  assert (length (bidc edges) = length (node_batch edges)) as Hlen
    by apply length_fmap.
  rewrite Hlen in Hm.
  destruct (tensor_max _) as [d|]; simpl in Hm; [|done].
  unfold zeros3, zeros2 in Hm.
  case_bool_decide as Hd; simpl in Hm; [done|].
  destruct (node_batch edges) as [|[b v] batch'] eqn:Hbatch; [done|].
  assert (node_batch edges !! 0 = Some (b, v)) as Hbv by by rewrite Hbatch.
  pose proof Hbv as [Hb Hv]%node_batch_lookup.
  destruct (nb_spec _ _ _ _ Hbv) as (row & Hrow & Hsum & Hnb).
  cbn [length seq foldM] in Hm.
  destruct (map_node _ _ _ _ _ _ _ _ 0) as [bufs1|] eqn:Hnode;
    simpl in Hm; [|done].
  clear Hm. unfold map_node in Hnode.
  rewrite (getitem_lookup _ _ _ Hv), (getitem_lookup _ _ _ Hb) in Hnode.
  simpl in Hnode.
  assert (neighbors_idc (eb edges) (en edges) (ek edges) b v = nonzero1 row)
    as Hnbrs.
  { rewrite <- Hnb. unfold nb.
    by rewrite (list_lookup_total_correct _ _ _ Hv),
               (list_lookup_total_correct _ _ _ Hb). }
  rewrite Hnbrs in Hnode.
  destruct (nonzero1 row) as [|k ks] eqn:Hks.
  { by apply nonzero1_nil_sum in Hks. }
  unfold enumerate in Hnode. rewrite imap_cons in Hnode.
  cbn [foldM] in Hnode.
  destruct (map_edge _ _ _ _ _ _ (0, k)) as [[[ng ed] mk]|] eqn:Hedge;
    simpl in Hnode; [|done].
  apply map_edge_Ok in Hedge as (nrow & erow & Hnrow & _ & Hset & _).
  apply setitem_row_Ok in Hset as (old & new & Hold & Hbc & _).
  unfold cell in Hold. simpl in Hold.
  apply lookup_replicate in Hold as [-> _].
  rewrite length_replicate in Hbc.
  apply broadcast_row_Ok in Hbc.
  rewrite (nodes_cell_length _ _ _ _ _ _ _ Hnodes Hnrow) in Hbc. lia.
Qed.

End MapEdgesFacts.

(** ** The neighbour lists of [forward], lines 100-123 *)

Module MapEdgesSpec.
Import Torch SummationMPNN Cells NeighbourLists MapEdgesPost Graph.
Import NeighbourClaims Examples TorchFacts CellFacts MapEdgesFacts.

(** C8.  Whenever the mapping loop of [forward] completes, the mask entry
    [(i, j)] is 1 exactly when [j] is below the degree of the [i]-th batch
    node, the number of its neighbours under the derived adjacency, and 0
    otherwise, and every batch node has degree at least one.  The loop
    completes on every conforming batch. *)
Theorem mask_marks_neighbours a nodes edges :
  (∀ nl, map_edges a nodes edges = Ok nl → mask_invariant nl)
  ∧ (conforming a nodes edges → ∃ nl, map_edges a nodes edges = Ok nl).
Proof.
split.
- intros nl [D Hpost]%map_edges_Ok i b v Hb Hv.
  rewrite (post_bidc _ _ _ _ _ Hpost) in Hb.
  rewrite (post_nidc _ _ _ _ _ Hpost) in Hv.
  assert (node_batch edges !! i = Some (b, v)) as Hbv
    by by apply node_batch_lookup.
  destruct (nb_spec _ _ _ _ Hbv) as (row & Hrow & Hsum & Hnb).
  apply lookup_lt_Some in Hbv as Hi.
  exists row. rewrite (post_adjacency _ _ _ _ _ Hpost). split; [done|].
  intros nbrs ->%is_neighbours_unique.
  rewrite (post_degree _ _ _ _ _ Hpost), Nat2Z.id. rewrite <- Hnb.
  split_and!.
  + destruct (nb edges i) eqn:Hnil; [|simpl; lia].
    symmetry in Hnb. by apply nonzero1_nil_sum in Hnb.
  + by apply (post_range _ _ _ _ _ Hpost).
  + intros j Hj. by apply (post_mask_cell a nodes edges nl D).
- intros (B & N & HB & HN & Hnodes & Hedges & Hnn).
  by apply (map_edges_total a nodes edges B N).
Qed.

Lemma conforming_example : conforming attrs0 nodes0 edges0.
Proof.
exists 1, 3. split_and!; [lia|lia| | |].
- split; [done|]. repeat constructor.
- split; [done|]. repeat constructor.
- unfold nonnegative. simpl. repeat constructor; lia.
Qed.

Lemma map_edges_batch0 : map_edges attrs0 nodes0 edges0 = Ok batch0.
Proof. reflexivity. Qed.

Lemma mask_marks_neighbours_witness :
  map_edges attrs0 nodes0 edges0 = Ok batch0
  ∧ mask_invariant batch0
  ∧ conforming attrs0 nodes0 edges0
  ∧ ∃ nl, map_edges attrs0 nodes0 edges0 = Ok nl.
Proof.
split_and!; [reflexivity| |exact conforming_example|].
- apply (proj1 (mask_marks_neighbours attrs0 nodes0 edges0)). reflexivity.
- apply (proj2 (mask_marks_neighbours attrs0 nodes0 edges0)).
  exact conforming_example.
Defined.




(** C10, as amended.  The copy of a node row into the neighbour buffer needs
    the row to have [hidden_node_features] entries or a single entry, which
    is broadcast: on every batch whose node feature dimension is neither and
    which has a node with a nonzero adjacency row sum, [forward] raises while
    it builds the neighbour lists, whatever the class. *)
Theorem copy_fails_on_mismatched_dims cls nodes edges w B N F :
  shape3 B N F nodes →
  F ≠ hidden_node_features (self w) → F ≠ 1 →
  (∃ b v row, cell (sum_last4 edges) b v = Some row ∧ sum1 row ≠ 0%Z) →
  ∃ e, map_edges (self w) nodes edges = Raise e
       ∧ forward cls nodes edges w = (Raise e, w).
Proof.
  intros Hnodes HF HF1 (b & v & row & Hrow & Hsum).
  destruct (map_edges_mismatch (self w) nodes edges B N F) as [e He];
    [done..| |].
  { intros Hnil.
    assert ((b, v) ∈ node_batch edges) as Hin.
    { apply node_batch_elem. by exists row. }
    rewrite Hnil in Hin. by apply elem_of_nil in Hin. }
  exists e. split; [done|].
  unfold forward. cbv beta iota delta [mbind stateE_bind get_self lift].
  by rewrite He.
Qed.

Lemma copy_fails_on_mismatched_dims_witness :
  shape3 1 2 3 nodes_wide
  ∧ 3 ≠ hidden_node_features (self world0) ∧ 3 ≠ 1
  ∧ ∃ e, map_edges (self world0) nodes_wide edges_pair = Raise e
         ∧ forward SummationMPNN nodes_wide edges_pair world0
           = (Raise e, world0).
Proof.
  assert (shape3 1 2 3 nodes_wide) as H1.
  { split; [done|]. repeat constructor. }
  assert (3 ≠ hidden_node_features (self world0)) as H2 by (simpl; lia).
  assert (3 ≠ 1) as H3 by lia.
  split_and!; [done..|].
  apply (copy_fails_on_mismatched_dims SummationMPNN nodes_wide edges_pair
           world0 1 2 3 H1 H2 H3).
  exists 0, 0, [0; 1]%Z. split; [reflexivity|simpl; lia].
Defined.

Lemma copy_succeeds_with_different_dims :
  ¬ copy_needs_equal_dims attrs0 nodes_narrow edges_pair
  ∧ ¬ copy_needs_equal_dims attrs0 nodes_wide edges_none.
Proof.
  split.
  - intros Hc. destruct (Hc 1 2 1) as [e He]; [|lia|lia|simpl; lia|].
    + split; [done|]. repeat constructor.
    + vm_compute in He. discriminate.
  - intros Hc. destruct (Hc 1 2 3) as [e He]; [|lia|lia|simpl; lia|].
    + split; [done|]. repeat constructor.
    + vm_compute in He. discriminate.
Qed.

End MapEdgesSpec.

Module ForwardFacts.
Import Torch SummationMPNN Cells NeighbourLists MapEdgesPost Graph Rounds.
Import TorchFacts CellFacts MapEdgesFacts.

(** *** The batch nodes are distinct *)

Lemma nonzero2_from_NoDup i0 t : NoDup (nonzero2_from i0 t).
Proof.
revert i0. induction t as [|r t IH]; intros i0; simpl; [constructor|].
apply NoDup_app. split_and!.
- apply (NoDup_fmap_2 _), StronglySorted_lt_NoDup, nonzero1_sorted.
- intros [i k] (k' & [= -> ->] & _)%list_elem_of_fmap.
  intros [Hle _]%elem_of_nonzero2_from. lia.
- apply IH.
Qed.

Lemma node_batch_NoDup edges : NoDup (node_batch edges).
Proof. apply nonzero2_from_NoDup. Qed.

Lemma selected_node_batch a nodes edges nl D :
  map_edges_post a nodes edges nl D → selected nl = node_batch edges.
Proof.
intros Hpost. unfold selected.
rewrite (post_bidc _ _ _ _ _ Hpost), (post_nidc _ _ _ _ _ Hpost).
apply zip_fst_snd.
Qed.

(** *** Reading and writing the hidden states of the batch nodes *)





(** *** One round, and the rounds *)

Lemma bind_Ok {S A B} (m : stateE S A) (f : A → stateE S B) s b s' :
  (m ≫= f) s = (Ok b, s') ↔ ∃ a s1, m s = (Ok a, s1) ∧ f a s1 = (Ok b, s').
Proof.
unfold mbind, stateE_bind. destruct (m s) as [[a|e] s1]; split.
- intros Hf. by exists a, s1.
- by intros (? & ? & [= <- <-] & ?).
- done.
- by intros (? & ? & ? & _).
Qed.

Lemma lift_Ok {S A} (r : result A) (s : S) a s' :
  lift r s = (Ok a, s') ↔ r = Ok a ∧ s' = s.
Proof. unfold lift. split; [by intros [= -> ->]|by intros [-> ->]]. Qed.







(** *** What [forward] leaves unchanged *)

Lemma frames_ret {A} (a : A) : frames (mret a).
Proof. by intros w. Qed.

Lemma frames_lift {A} (r : result A) : frames (lift r).
Proof. by intros w. Qed.

Lemma frames_raise {A} e : frames (raise (A := A) e).
Proof. by intros w. Qed.

Lemma frames_bind {A B} (m : stateE world A) (f : A → stateE world B) :
  frames m → (∀ a w w1, m w = (Ok a, w1) → frames (f a)) → frames (m ≫= f).
Proof.
intros Hm Hf w. unfold mbind, stateE_bind. specialize (Hm w).
destruct (m w) as [[a|e] w1] eqn:Hmw; simpl in *; [|done].
by rewrite (Hf a w w1).
Qed.

Lemma frames_call {A} m (body : hook A) : keeps_self body → frames (call m body).
Proof.
intros Hbody w. unfold call. specialize (Hbody (self w)).
by destruct (body (self w)) as [r s].
Qed.

Lemma frames_foldM {A B} (f : B → A → stateE world B) l :
  (∀ b x, frames (f b x)) → ∀ b, frames (foldM f b l).
Proof.
intros Hf. induction l as [|x l IH]; intros b; simpl.
- apply frames_ret.
- apply frames_bind; [apply Hf|]. intros. apply IH.
Qed.

Lemma message_pass_frames cls nl h :
  keeps_attributes cls → frames (message_pass cls nl h).
Proof.
intros Hcls. unfold message_pass, getattr_aggregate_message.
destruct (aggregate_message cls) as [agg|] eqn:Hagg.
- apply frames_bind; [apply frames_ret|]. intros f w w1 [= <- _].
  apply frames_bind; [apply frames_lift|]. intros rows _ _ _.
  apply frames_bind.
  { by apply frames_call, (aggregate_message_keeps cls Hcls). }
  intros msgs _ _ _.
  apply frames_bind; [apply frames_lift|]. intros rows' _ _ _.
  apply frames_bind; [by apply frames_call, update_keeps|].
  intros upd _ _ _. apply frames_lift.
- apply frames_bind; [apply frames_raise|]. by intros f w w1 [=].
Qed.

Lemma forward_frames cls nodes edges :
  keeps_attributes cls → frames (forward cls nodes edges).
Proof.
intros Hcls. unfold forward.
apply frames_bind; [by intros w|]. intros a _ _ _.
apply frames_bind; [apply frames_lift|]. intros nl _ _ _.
apply frames_bind.
{ apply frames_foldM. intros. by apply message_pass_frames. }
intros h _ _ _. by apply frames_call, readout_keeps.
Qed.

(** *** The initial hidden states and the node mask *)

Lemma initial_hidden_nodes_id B N F (nodes : tensor3) :
  shape3 B N F nodes → initial_hidden_nodes nodes = nodes.
Proof.
intros [_ Hm]. unfold initial_hidden_nodes, slice_assign, zeros_like.
assert (Forall (λ m : tensor2, length m = shape_1 nodes) nodes) as Hlen.
{ destruct nodes as [|m0 nodes]; [constructor|]. simpl.
  pose proof Hm as [[HN0 _] _]%Forall_cons.
  eapply Forall_impl; [exact Hm|]. intros m [HN _]. congruence. }
generalize (shape_1 nodes) Hlen. clear. intros n.
induction 1 as [|m nodes Hn _ IH]; [done|].
rewrite fmap_cons. cbn [zip_with]. rewrite IH. f_equal.
rewrite take_ge by lia. rewrite drop_ge; [by rewrite app_nil_r|].
rewrite length_fmap. lia.
Qed.

Lemma node_mask_cell (adjacency : tensor3) b v :
  cell (node_mask adjacency) b v
  = (λ row, bool_decide (sum1 row ≠ 0%Z)) <$> cell adjacency b v.
Proof.
unfold node_mask, sum_last3, sum_last2, cell.
rewrite !list_lookup_fmap.
destruct (adjacency !! b) as [m|]; simpl; [|done].
rewrite !list_lookup_fmap. by destruct (m !! v).
Qed.
(** *** [forward] returns on a conforming batch when the methods do *)

Lemma shape3_hidden_wf B N F (t : tensor3) : shape3 B N F t → hidden_wf B N F t.
Proof.
intros [HB Hm]. split.
- split; [done|]. eapply Forall_impl; [done|]. by intros m [? _].
- intros i j r Hr. by eapply nodes_cell_length.
Qed.




Lemma shape3_of_cells n D H (t : tensor3) :
  rect n D t → (∀ i j r, cell t i j = Some r → length r = H) →
  shape3 n D H t.
Proof.
intros [Hn HD] Hcells. split; [done|].
apply Forall_lookup. intros i m Hm. split.
- by apply (Forall_lookup_1 _ _ _ _ HD Hm).
- apply Forall_lookup. intros j r Hr. apply (Hcells i j).
  unfold cell. by rewrite Hm.
Qed.



End ForwardFacts.

(** ** The forward pass, lines 125-140, and the class *)

Module ForwardSpec.
Import Torch SummationMPNN Cells NeighbourLists MapEdgesPost Graph Rounds.
Import NeighbourClaims Examples TorchFacts CellFacts MapEdgesFacts ForwardFacts.

(** C4.  Each of the three abstract methods of the base class raises
    [NotImplementedError], whatever its arguments, and returns nothing. *)
Theorem abstract_methods_raise n g e m h inp msk s :
  message_terms SummationMPNN n g e s = (Raise NotImplementedError, s)
  ∧ update SummationMPNN n m s = (Raise NotImplementedError, s)
  ∧ readout SummationMPNN h inp msk s = (Raise NotImplementedError, s).
Proof. by split_and!. Qed.

(** [forward] looks up [aggregate_message], which the class does not
    declare: in a class without it the first round raises. *)
Lemma forward_without_aggregate_message cls nodes edges w nl :
  aggregate_message cls = None →
  0 < message_passes (self w) →
  map_edges (self w) nodes edges = Ok nl →
  forward cls nodes edges w = (Raise (AttributeError "aggregate_message"), w).
Proof.
intros Hnone Hpasses Hnl. unfold forward, message_passing.
cbv beta iota delta [mbind stateE_bind get_self lift]. rewrite Hnl.
destruct (message_passes (self w)) as [|n]; [lia|].
cbn [seq foldM]. unfold message_pass, getattr_aggregate_message.
rewrite Hnone. by cbv beta iota delta [mbind stateE_bind raise].
Qed.

(** [forward] never calls [message_terms]. *)
Lemma silent_bind {A B} (m : stateE world A) (f : A → stateE world B) :
  silent m → (∀ a, silent (f a)) → silent (m ≫= f).
Proof.
intros Hm Hf w Hw. unfold mbind, stateE_bind. specialize (Hm w Hw).
destruct (m w) as [[a|e] w1]; simpl in *; [|done]. by apply Hf.
Qed.

Lemma silent_call {A} m (body : hook A) :
  m ≠ m_message_terms → silent (call m body).
Proof.
intros Hm w Hw. unfold call. destruct (body (self w)) as [r s]. simpl.
rewrite elem_of_app, list_elem_of_singleton. intros [?|?]; congruence.
Qed.

Lemma forward_never_calls_message_terms cls nodes edges :
  silent (forward cls nodes edges).
Proof.
unfold forward.
apply silent_bind; [by intros w|]. intros a.
apply silent_bind; [by intros w|]. intros nl.
apply silent_bind; [|intros h; by apply silent_call].
unfold message_passing. generalize (initial_hidden_nodes nodes).
induction (seq 0 (message_passes a)) as [|x l IH]; intros h; simpl.
- by intros w.
- apply silent_bind; [|done]. unfold message_pass.
  apply silent_bind.
  { unfold getattr_aggregate_message.
    by destruct (aggregate_message cls); intros w. }
  intros f. apply silent_bind; [by intros w|]. intros rows.
  apply silent_bind; [by apply silent_call|]. intros msgs.
  apply silent_bind; [by intros w|]. intros rows'.
  apply silent_bind; [by apply silent_call|]. intros upd. by intros w.
Qed.

(** C2.  On a subclass that implements the three documented hooks,
    [message_terms], [update] and [readout], [forward] raises
    [AttributeError] for [aggregate_message] in its first round, before any
    hook is called. *)
Theorem forward_on_documented_hooks_raises :
  forward contract_only nodes0 edges0 world0
  = (Raise (AttributeError "aggregate_message"), world0).
Proof. reflexivity. Qed.





(** C7.  When the methods of the class leave the attributes of the instance
    as they are, so does [forward], whether it returns or raises. *)
Theorem forward_keeps_attributes cls nodes edges w :
  keeps_attributes cls →
  let w' := (forward cls nodes edges w).2 in
  hidden_node_features (self w') = hidden_node_features (self w)
  ∧ edge_features (self w') = edge_features (self w)
  ∧ message_size (self w') = message_size (self w)
  ∧ message_passes (self w') = message_passes (self w)
  ∧ constants (self w') = constants (self w).
Proof.
intros Hcls w'. unfold w'. by rewrite (forward_frames cls nodes edges Hcls w).
Qed.

Lemma with_aggregate_keeps_attributes : keeps_attributes with_aggregate.
Proof.
constructor; try by intros; intros s.
intros f [= <-]. by intros; intros s.
Qed.

Lemma forward_keeps_attributes_witness :
  keeps_attributes with_aggregate
  ∧ let w' := (forward with_aggregate nodes0 edges0 world0).2 in
    hidden_node_features (self w') = hidden_node_features (self world0)
    ∧ edge_features (self w') = edge_features (self world0)
    ∧ message_size (self w') = message_size (self world0)
    ∧ message_passes (self w') = message_passes (self world0)
    ∧ constants (self w') = constants (self world0).
Proof.
split; [exact with_aggregate_keeps_attributes|].
exact (forward_keeps_attributes with_aggregate nodes0 edges0 world0
         with_aggregate_keeps_attributes).
Defined.





End ForwardSpec.

(** ** The molecule counter *)

Module CountMoleculesSpec.
Import CountMolecules Examples.



(** The lines are the text, cut after each line feed. *)
Lemma readlines_concat text :
  foldr String.append EmptyString (readlines text) = text.
Proof.
unfold readlines. induction text as [|c s IH]; [done|]. cbn [split_lines].
destruct (Ascii.eqb c LF).
- simpl. by rewrite IH.
- destruct (split_lines s) as [|l ls]; simpl in *; by rewrite <- IH.
Qed.





End CountMoleculesSpec.

(** * Further properties of the two files *)

(** ** Lines and line ends *)

Module LinesFacts.
Import CountMolecules Lines.

Lemma append_cons c (s t : string) : String c s +:+ t = String c (s +:+ t).
Proof. reflexivity. Qed.



Lemma line_feeds_cons_0 c s :
  line_feeds (String c s) = 0 ↔ Ascii.eqb c LF = false ∧ line_feeds s = 0.
Proof. simpl. destruct (Ascii.eqb c LF); split; intros; try lia; naive_solver. Qed.

Lemma is_line_LF : is_line (String LF EmptyString).
Proof. by exists EmptyString. Qed.

Lemma is_line_cons c l :
  Ascii.eqb c LF = false → is_line l → is_line (String c l).
Proof.
intros Hc (body & Hb & ->). exists (String c body). split; [|done].
by apply line_feeds_cons_0.
Qed.

Lemma is_fragment_cons c l :
  Ascii.eqb c LF = false → line_feeds l = 0 → is_fragment (String c l).
Proof. intros Hc Hl. split; [done|by apply line_feeds_cons_0]. Qed.

Lemma well_formed_cons l ls :
  well_formed (l :: ls)
  ↔ (is_line l ∨ (ls = [] ∧ is_fragment l)) ∧ well_formed ls.
Proof.
split.
- intros H. split.
  + destruct (H 0 l eq_refl) as [?|[Hlen ?]]; [by left|right].
    split; [|done]. destruct ls; [done|simpl in Hlen; lia].
  + intros i l' Hl'. destruct (H (S i) l' Hl') as [?|[Hlen ?]]; [by left|].
    right. split; [simpl in Hlen; lia|done].
- intros [H0 H] [|i] l' Hl'; simplify_eq/=.
  + destruct H0 as [?|[-> ?]]; [by left|by right].
  + destruct (H i l' Hl') as [?|[Hlen ?]]; [by left|right].
    split; [lia|done].
Qed.

Lemma well_formed_nil : well_formed [].
Proof. by intros i l ?. Qed.

Lemma split_lines_well_formed s : well_formed (split_lines s).
Proof.
induction s as [|c s IH]; simpl; [apply well_formed_nil|].
destruct (Ascii.eqb c LF) eqn:Hc.
- apply Ascii.eqb_eq in Hc as ->. apply well_formed_cons. split; [|done].
  left. apply is_line_LF.
- destruct (split_lines s) as [|l ls].
  + apply well_formed_cons. split; [|done]. right. split; [done|].
    by apply is_fragment_cons.
  + apply well_formed_cons in IH as [[Hl|[-> [_ Hl]]] Hls].
    * apply well_formed_cons. split; [|done]. left. by apply is_line_cons.
    * apply well_formed_cons. split; [|done]. right. split; [done|].
      by apply is_fragment_cons.
Qed.




Lemma carriage_returns_cons_0 c s :
  carriage_returns (String c s) = 0
  ↔ Ascii.eqb c CR = false ∧ carriage_returns s = 0.
Proof. simpl. destruct (Ascii.eqb c CR); split; intros; try lia; naive_solver. Qed.

Lemma carriage_returns_app s t :
  carriage_returns (s +:+ t) = carriage_returns s + carriage_returns t.
Proof.
induction s as [|c s IH]; [done|].
rewrite append_cons. cbn [carriage_returns]. rewrite IH. lia.
Qed.


Lemma LF_not_CR : Ascii.eqb LF CR = false.
Proof. done. Qed.




Lemma universal_newlines_no_cr_aux n : ∀ s,
  String.length s ≤ n → carriage_returns (universal_newlines s) = 0.
Proof.
induction n as [|n IH]; intros s Hn.
- destruct s; [done|simpl in Hn; lia].
- destruct s as [|c s]; [done|]. simpl in Hn. cbn [universal_newlines].
  destruct (Ascii.eqb c CR) eqn:Hc.
  + destruct s as [|c' s']; [done|].
    destruct (Ascii.eqb c' LF) eqn:Hc'.
    * simpl in Hn. apply carriage_returns_cons_0. split; [done|].
      apply IH. lia.
    * apply carriage_returns_cons_0. split; [done|]. apply IH. lia.
  + apply carriage_returns_cons_0. split; [done|]. apply IH. lia.
Qed.

Lemma universal_newlines_no_cr s :
  carriage_returns (universal_newlines s) = 0.
Proof. by apply (universal_newlines_no_cr_aux (String.length s)). Qed.


End LinesFacts.

(** ** The molecule counter and the script *)

Module CountMoleculesMore.
Import CountMolecules Lines LinesFacts LineEndExamples Examples.


Lemma carriage_returns_lines ls :
  carriage_returns (concat_lines ls) = 0 →
  Forall (λ l, carriage_returns l = 0) ls.
Proof.
induction ls as [|l ls IH]; [done|]. cbn [concat_lines foldr].
rewrite carriage_returns_app. intros H. constructor; [lia|].
apply IH. unfold concat_lines. lia.
Qed.


(** X2.  [readlines] cuts the text of a file after each line feed and
    nowhere else: the lines, put together again, are the text that was read;
    every line but the last ends in its only line feed, the last may be a
    rest without line feed, no line is empty; and no line contains a
    carriage return, whatever the file contains. *)
Theorem readlines_cuts_after_line_feeds content :
  let lines := readlines (universal_newlines content) in
  concat_lines lines = universal_newlines content
  ∧ well_formed lines
  ∧ Forall (λ l, carriage_returns l = 0) lines.
Proof.
cbv zeta. split_and!.
- apply CountMoleculesSpec.readlines_concat.
- apply split_lines_well_formed.
- apply carriage_returns_lines.
  unfold concat_lines. rewrite CountMoleculesSpec.readlines_concat.
  apply universal_newlines_no_cr.
Qed.





End CountMoleculesMore.

(** ** Row sums, degrees and the order of the batch nodes *)

Module BatchFacts.
Import Torch SummationMPNN Cells NeighbourLists MapEdgesPost Graph Rounds.
Import BatchOrder CellFacts TorchFacts MapEdgesFacts ForwardFacts.

Lemma degrees_elem edges d :
  d ∈ view_flat (sum_last3 (adj edges))
  ↔ ∃ b v row, cell (adj edges) b v = Some row ∧ d = sum1 row.
Proof.
split.
- unfold view_flat, sum_last3, sum_last2.
  intros (l & Hd & Hl)%list_elem_of_join.
  apply list_elem_of_fmap in Hl as (m & -> & Hm).
  apply list_elem_of_fmap in Hd as (row & -> & Hrow).
  apply list_elem_of_lookup in Hm as [b Hb].
  apply list_elem_of_lookup in Hrow as [v Hv].
  exists b, v, row. split; [|done]. unfold cell. by rewrite Hb.
- intros (b & v & row & Hrow & ->). by eapply row_sum_in_degrees.
Qed.

Lemma degree_nonzero1_from k row :
  length (nonzero1_from k row) = degree row.
Proof.
unfold degree. revert k. induction row as [|x row IH]; intros k; [done|].
rewrite filter_cons. cbn [nonzero1_from].
case_bool_decide as Hx.
- rewrite decide_False by tauto. apply IH.
- rewrite decide_True by done. simpl. by rewrite IH.
Qed.

Lemma degree_nonzero1 row : length (nonzero1 row) = degree row.
Proof. apply degree_nonzero1_from. Qed.



Lemma nonzero2_from_sorted i t : StronglySorted row_major (nonzero2_from i t).
Proof.
revert i. induction t as [|r t IH]; intros i; [constructor|].
cbn [nonzero2_from]. apply StronglySorted_app_2.
- intros [i1 k1] [i2 k2] (k & [= -> ->] & _)%list_elem_of_fmap
    [Hle _]%elem_of_nonzero2_from.
  left. simpl. lia.
- apply (StronglySorted_fmap _ lt); [|apply nonzero1_sorted].
  intros x y Hxy. right. simpl. lia.
- apply IH.
Qed.

Lemma length_bcast row old : length (bcast row old) = length old.
Proof.
unfold bcast, broadcast_row. case_bool_decide as Hlen; [done|].
destruct row as [|x [|??]]; [done| |done]. by rewrite length_replicate.
Qed.

Lemma empty_degrees (edges : tensor4) :
  Forall (λ g : tensor3, g = []) edges →
  view_flat (sum_last3 (sum_last4 edges)) = [].
Proof. induction 1 as [|g edges -> _ IH]; [done|]. simpl. apply IH. Qed.

Lemma nil_no_elem {A} (l : list A) : (∀ x, x ∉ l) → l = [].
Proof. destruct l as [|x l]; [done|]. intros H. destruct (H x). by left. Qed.

End BatchFacts.

(** ** The neighbour lists *)

Module MapEdgesMore.
Import Torch SummationMPNN Cells NeighbourLists MapEdgesPost Graph Rounds.
Import BatchOrder CellFacts TorchFacts MapEdgesFacts ForwardFacts BatchFacts.
Import Examples BatchExamples.

(** X5.  A batch without a node, because it has no graph or because its
    graphs have no node, makes [forward] raise [RuntimeError]: the maximum
    of line 108 is taken over no element.  No method of the class has been
    called by then. *)
Theorem forward_on_a_batch_without_nodes_raises cls nodes edges w :
  Forall (λ g : tensor3, g = []) edges →
  map_edges (self w) nodes edges = Raise RuntimeError
  ∧ forward cls nodes edges w = (Raise RuntimeError, w).
Proof.
intros Hempty.
assert (map_edges (self w) nodes edges = Raise RuntimeError) as Hm.
{ unfold map_edges. by rewrite (empty_degrees _ Hempty). }
split; [done|]. unfold forward.
cbv beta iota delta [mbind stateE_bind get_self lift]. by rewrite Hm.
Qed.

Lemma forward_on_a_batch_without_nodes_raises_witness :
  forward SummationMPNN nodes0 edges_no_graph world0
  = (Raise RuntimeError, world0)
  ∧ forward SummationMPNN nodes0 edges_no_node world0
    = (Raise RuntimeError, world0).
Proof.
split.
- apply (forward_on_a_batch_without_nodes_raises
           SummationMPNN nodes0 edges_no_graph world0).
  constructor.
- apply (forward_on_a_batch_without_nodes_raises
           SummationMPNN nodes0 edges_no_node world0).
  by repeat constructor.
Defined.

(** X6.  The batch nodes are listed once each and in row-major order, first
    by graph and then by node index; the two index lists have one length,
    and the nodes listed are exactly the nodes whose adjacency row has a
    nonzero sum. *)
Theorem batch_nodes_are_listed_in_row_major_order a nodes edges nl :
  map_edges a nodes edges = Ok nl →
  length (node_batch_batch_idc nl) = length (node_batch_node_idc nl)
  ∧ StronglySorted row_major (selected nl)
  ∧ NoDup (selected nl)
  ∧ ∀ b v, (b, v) ∈ selected nl
      ↔ ∃ row, cell (sum_last4 edges) b v = Some row ∧ sum1 row ≠ 0%Z.
Proof.
intros [D Hpost]%map_edges_Ok.
rewrite (selected_node_batch _ _ _ _ _ Hpost).
rewrite (post_bidc _ _ _ _ _ Hpost), (post_nidc _ _ _ _ _ Hpost).
split_and!.
- unfold bidc, nidc. by rewrite !length_fmap.
- apply nonzero2_from_sorted.
- apply node_batch_NoDup.
- intros b v. apply node_batch_elem.
Qed.

Lemma batch_nodes_are_listed_in_row_major_order_witness :
  StronglySorted row_major (selected batch0)
  ∧ NoDup (selected batch0).
Proof.
pose proof (batch_nodes_are_listed_in_row_major_order
              attrs0 nodes0 edges0 batch0 eq_refl) as (_ & H1 & H2 & _).
by split.
Defined.

(** X7.  Whenever the mapping loop completes, the three buffers have one
    block for each batch node and [max_node_degree] rows in each block; the
    rows of the neighbour buffer have [hidden_node_features] entries, those
    of the edge buffer [edge_features] entries, and the mask holds zeros and
    ones only.  [max_node_degree] is not negative. *)
Theorem buffers_have_the_batch_shape a nodes edges nl :
  map_edges a nodes edges = Ok nl →
  let n := length (node_batch_batch_idc nl) in
  let D := Z.to_nat (max_node_degree nl) in
  (0 ≤ max_node_degree nl)%Z
  ∧ shape3 n D (hidden_node_features a) (node_batch_node_nghbs nl)
  ∧ shape3 n D (edge_features a) (node_batch_edges nl)
  ∧ shape2 n D (node_batch_node_nghb_mask nl)
  ∧ ∀ i j x, cell (node_batch_node_nghb_mask nl) i j = Some x →
      x = 0%Z ∨ x = 1%Z.
Proof.
intros [D Hpost]%map_edges_Ok. cbv zeta.
rewrite (post_batch_size _ _ _ _ _ Hpost), (post_degree _ _ _ _ _ Hpost).
rewrite Nat2Z.id.
assert (rect (length (node_batch edges)) D (node_batch_node_nghbs nl)) as Hn.
{ rewrite (post_nghbs _ _ _ _ _ Hpost). apply rect_fill, rect_replicate. }
assert (rect (length (node_batch edges)) D (node_batch_edges nl)) as He.
{ rewrite (post_edges _ _ _ _ _ Hpost). apply rect_fill, rect_replicate. }
pose proof (post_mask_rect _ _ _ _ _ Hpost) as Hm.
split_and!.
- lia.
- apply shape3_of_cells; [done|]. intros i j r Hr.
  assert (i < length (node_batch edges) ∧ j < D) as [Hi Hj].
  { by apply (rect_cell _ _ _ _ _ Hn). }
  rewrite (post_nghbs_cell _ _ _ _ _ Hpost i j Hi Hj) in Hr.
  injection Hr as <-.
  destruct (nb edges i !! j);
    by rewrite ?length_bcast, length_replicate.
- apply shape3_of_cells; [done|]. intros i j r Hr.
  assert (i < length (node_batch edges) ∧ j < D) as [Hi Hj].
  { by apply (rect_cell _ _ _ _ _ He). }
  rewrite (post_edges_cell _ _ _ _ _ Hpost i j Hi Hj) in Hr.
  injection Hr as <-.
  destruct (nb edges i !! j);
    by rewrite ?length_bcast, length_replicate.
- exact Hm.
- intros i j x Hx.
  assert (i < length (node_batch edges) ∧ j < D) as [Hi Hj].
  { by apply (rect_cell _ _ _ _ _ Hm). }
  rewrite (post_mask_cell _ _ _ _ _ Hpost i j Hi Hj) in Hx.
  injection Hx as <-. case_decide; tauto.
Qed.

Lemma buffers_have_the_batch_shape_witness :
  shape3 3 2 2 (node_batch_node_nghbs batch0)
  ∧ shape3 3 2 1 (node_batch_edges batch0)
  ∧ shape2 3 2 (node_batch_node_nghb_mask batch0).
Proof.
pose proof (buffers_have_the_batch_shape attrs0 nodes0 edges0 batch0 eq_refl)
  as (_ & H1 & H2 & H3 & _).
by split_and!.
Defined.

Lemma post_largest_row_sum a nodes edges nl D :
  map_edges_post a nodes edges nl D →
  (∀ b v row, cell (adj edges) b v = Some row → (sum1 row ≤ Z.of_nat D)%Z)
  ∧ ∃ b v row, cell (adj edges) b v = Some row ∧ sum1 row = Z.of_nat D.
Proof.
intros Hpost. pose proof (post_max _ _ _ _ _ Hpost) as Hmax.
destruct (tensor_max_Ok (view_flat (sum_last3 (adj edges))))
  as (d & Hd & Hle & Hin).
{ intros Hnil. by rewrite Hnil in Hmax. }
assert (d = Z.of_nat D) as -> by congruence.
split.
- intros b v row Hrow.
  eapply Forall_forall in Hle; [done|]. by eapply row_sum_in_degrees.
- apply degrees_elem in Hin as (b & v & row & Hrow & Hsum). by exists b, v, row.
Qed.



(** X9.  A batch node with more nonzero adjacency entries than the largest
    row sum makes the mapping loop fail, as negative edge features allow:
    the buffers have too few rows for its neighbours. *)
Theorem more_neighbours_than_rows_raises a nodes edges b v row :
  cell (sum_last4 edges) b v = Some row →
  sum1 row ≠ 0%Z →
  (∀ b' v' row', cell (sum_last4 edges) b' v' = Some row' →
     (sum1 row' < Z.of_nat (degree row))%Z) →
  ∃ e, map_edges a nodes edges = Raise e.
Proof.
intros Hrow Hsum Hlt.
destruct (map_edges a nodes edges) as [nl|e] eqn:Hm; [exfalso|by eexists].
apply map_edges_Ok in Hm as [D Hpost].
destruct (post_largest_row_sum _ _ _ _ _ Hpost)
  as [_ (b' & v' & row' & Hrow' & Hsum')].
specialize (Hlt _ _ _ Hrow').
assert ((b, v) ∈ node_batch edges) as [i Hi]%list_elem_of_lookup.
{ apply node_batch_elem. by exists row. }
pose proof (post_range _ _ _ _ _ Hpost i (lookup_lt_Some _ _ _ Hi)) as Hrange.
destruct (nb_spec _ _ _ _ Hi) as (row2 & Hrow2 & _ & Hnb).
assert (row2 = row) as -> by (unfold adj in Hrow2; congruence).
rewrite Hnb, degree_nonzero1 in Hrange. lia.
Qed.

Lemma more_neighbours_than_rows_raises_witness :
  ∃ e, map_edges attrs0 nodes0 edges_crowded = Raise e.
Proof.
apply (more_neighbours_than_rows_raises attrs0 nodes0 edges_crowded
         0 0 [1; 1; -1]%Z); [reflexivity|done|].
intros [|b'] [|[|[|v']]] row' [= <-]; by vm_compute.
Defined.



End MapEdgesMore.

(** ** The rounds and the calls of [forward] *)

Module ForwardMore.
Import Torch SummationMPNN Cells NeighbourLists MapEdgesPost Graph Rounds.
Import BatchOrder CellFacts TorchFacts MapEdgesFacts ForwardFacts BatchFacts.
Import Examples BatchExamples.

Lemma message_pass_calls cls nl h w :
  match message_pass cls nl h w with
  | (Ok _, w') =>
      calls w' = calls w ++ [m_aggregate_message; m_update]
  | (Raise _, w') =>
      calls w' = calls w
      ∨ calls w' = calls w ++ [m_aggregate_message]
      ∨ calls w' = calls w ++ [m_aggregate_message; m_update]
  end.
Proof.
unfold message_pass, getattr_aggregate_message, call, lift, raise.
cbv beta iota delta [mbind stateE_bind mret stateE_ret].
destruct (aggregate_message cls) as [agg|]; [|by left].
destruct (gather h _ _) as [rows|]; [|by left].
destruct (agg _ _ _ _ _) as [[msgs|e] s1]; [|right; by left]. simpl.
destruct (update cls _ _ _) as [[upd|e] s2]; simpl;
  rewrite <- app_assoc; simpl; [|right; by right].
destruct (index_put _ _ _ _); simpl; [done|right; by right].
Qed.

Lemma rounds_app k :
  mjoin (replicate k [m_aggregate_message; m_update])
  ++ [m_aggregate_message; m_update]
  = mjoin (replicate (S k) [m_aggregate_message; m_update]).
Proof. induction k as [|k IH]; [done|]. simpl in *. by rewrite IH. Qed.

Lemma message_passing_calls cls nl (l : list nat) : ∀ h w,
  match foldM (λ h (_ : nat), message_pass cls nl h) h l w with
  | (Ok _, w') =>
      calls w'
      = calls w ++ mjoin (replicate (length l) [m_aggregate_message; m_update])
  | (Raise _, w') =>
      ∃ k tail,
        calls w'
        = calls w ++ mjoin (replicate k [m_aggregate_message; m_update])
          ++ tail
        ∧ ((tail = [] ∧ k ≤ length l)
           ∨ (tail = [m_aggregate_message] ∧ k < length l))
  end.
Proof.
induction l as [|x l IH]; intros h w.
- simpl. by rewrite app_nil_r.
- cbn [foldM]. cbv beta iota delta [mbind stateE_bind].
  pose proof (message_pass_calls cls nl h w) as H1.
  destruct (message_pass cls nl h w) as [[h1|e] w1].
  + specialize (IH h1 w1).
    destruct (foldM (M := stateE world) _ h1 l w1) as [[h2|e] w2].
    * rewrite IH, H1, <- app_assoc. done.
    * destruct IH as (k & tail & Hcalls & Htail).
      exists (S k), tail. split.
      { rewrite Hcalls, H1, <- app_assoc. done. }
      simpl. destruct Htail as [[-> ?]|[-> ?]]; [left|right]; split; (done || lia).
  + destruct H1 as [H1|[H1|H1]].
    * exists 0, []. split; [by rewrite H1, app_nil_r|]. left. split; [done|lia].
    * exists 0, [m_aggregate_message]. split; [done|]. right.
      split; [done|simpl; lia].
    * exists 1, []. split; [by rewrite H1|]. left. split; [done|simpl; lia].
Qed.

Lemma protocol_without_message_terms passes tr :
  protocol passes tr → m_message_terms ∉ tr.
Proof.
intros (k & tail & -> & _ & Htail).
rewrite elem_of_app. intros [Hin|Hin].
- apply list_elem_of_join in Hin as (l & Hl & Hin).
  apply elem_of_replicate in Hin as [-> _].
  apply elem_of_cons in Hl as [?|Hl]; [done|].
  by apply list_elem_of_singleton in Hl.
- destruct Htail as [->|[[-> _]|[-> _]]].
  + by apply elem_of_nil in Hin.
  + by apply list_elem_of_singleton in Hin.
  + by apply list_elem_of_singleton in Hin.
Qed.

(** X11.  On every run of [forward], complete or cut short by an exception,
    the methods are called in the order of the rounds: [aggregate_message]
    and then [update], at most [message_passes] times, and [readout] once
    and only after all rounds.  [message_terms] is never called. *)
Theorem forward_follows_the_call_protocol cls nodes edges w :
  ∃ tr, calls (forward cls nodes edges w).2 = calls w ++ tr
        ∧ protocol (message_passes (self w)) tr
        ∧ m_message_terms ∉ tr.
Proof.
cut (∃ tr, calls (forward cls nodes edges w).2 = calls w ++ tr
           ∧ protocol (message_passes (self w)) tr).
{ intros (tr & H1 & H2). exists tr. split_and!; [done..|].
  by eapply protocol_without_message_terms. }
unfold forward, message_passing.
cbv beta iota delta [mbind stateE_bind get_self lift].
destruct (map_edges (self w) nodes edges) as [nl|e].
- pose proof (message_passing_calls cls nl (seq 0 (message_passes (self w)))
                (initial_hidden_nodes nodes) w) as H.
  rewrite length_seq in H.
  destruct (foldM (M := stateE world) _ _ _ w) as [[h|e] w1].
  + exists (mjoin (replicate (message_passes (self w))
                     [m_aggregate_message; m_update]) ++ [m_readout]).
    split.
    * unfold call. destruct (readout cls _ _ _ _) as [r s]. simpl.
      by rewrite H, <- app_assoc.
    * exists (message_passes (self w)), [m_readout].
      split_and!; [done..|]. right. by right.
  + destruct H as (k & tail & Hcalls & Htail). simpl.
    exists (mjoin (replicate k [m_aggregate_message; m_update]) ++ tail).
    split; [done|]. exists k, tail.
    destruct Htail as [[-> ?]|[-> ?]]; split_and!; try done; try lia.
    * by left.
    * right. by left.
- exists []. split; [by rewrite app_nil_r|].
  exists 0, []. split_and!; [done|lia|by left].
Qed.

(** X12.  With [message_passes = 0] no round runs and [aggregate_message]
    is not looked up: [forward] is the call of [readout] on the input nodes,
    both as hidden states and as input, and the node mask. *)
Theorem forward_without_message_passes cls nodes edges w nl B N F :
  message_passes (self w) = 0 →
  shape3 B N F nodes →
  map_edges (self w) nodes edges = Ok nl →
  forward cls nodes edges w
  = call m_readout
      (readout cls nodes nodes (node_mask (sum_last4 edges))) w.
Proof.
intros Hpasses Hnodes Hnl. unfold forward, message_passing.
cbv beta iota delta [mbind stateE_bind get_self lift]. rewrite Hnl, Hpasses.
cbn [seq foldM]. cbv beta iota delta [mret stateE_ret].
rewrite (initial_hidden_nodes_id _ _ _ _ Hnodes).
apply map_edges_Ok in Hnl as [D Hpost].
by rewrite (post_adjacency _ _ _ _ _ Hpost).
Qed.

Lemma forward_without_message_passes_witness :
  forward SummationMPNN nodes0 edges0 world_no_passes
  = (Raise NotImplementedError,
     {| self := self world_no_passes; calls := [m_readout] |})
  ∧ forward with_aggregate nodes0 edges0 world_no_passes
    = (Ok [[1; 0]; [0; 1]; [1; 1]]%Z,
       {| self := self world_no_passes; calls := [m_readout] |}).
Proof.
split.
- etrans; [|reflexivity].
  apply (forward_without_message_passes SummationMPNN nodes0 edges0
           world_no_passes batch0 1 3 2);
    [reflexivity|by repeat constructor|reflexivity].
- etrans; [|reflexivity].
  apply (forward_without_message_passes with_aggregate nodes0 edges0
           world_no_passes batch0 1 3 2);
    [reflexivity|by repeat constructor|reflexivity].
Defined.

Lemma message_pass_without_batch_nodes cls nl h w h' w' :
  node_batch_batch_idc nl = [] →
  message_pass cls nl h w = (Ok h', w') → h' = h.
Proof.
unfold message_pass, getattr_aggregate_message. intros Hnil Hm.
apply bind_Ok in Hm as (agg & w0 & Hagg & Hm).
apply bind_Ok in Hm as (rows & w1 & _ & Hm).
apply bind_Ok in Hm as (msgs & w2 & _ & Hm).
apply bind_Ok in Hm as (rows' & w3 & _ & Hm).
apply bind_Ok in Hm as (upd & w4 & _ & Hm).
apply lift_Ok in Hm as [Hput _]. rewrite Hnil in Hput.
unfold index_put in Hput. simpl in Hput.
cbv beta iota delta [mbind result_bind mret result_ret] in Hput.
case_bool_decide; [congruence|].
destruct upd as [|row [|??]]; congruence.
Qed.

Lemma message_passing_without_batch_nodes cls nl passes : ∀ h w h' w',
  node_batch_batch_idc nl = [] →
  message_passing cls nl passes h w = (Ok h', w') → h' = h.
Proof.
unfold message_passing. induction (seq 0 passes) as [|x l IH];
  intros h w h' w' Hnil Hm.
- by injection Hm as <- _.
- cbn [foldM] in Hm. apply bind_Ok in Hm as (h1 & w1 & H1 & Hm).
  apply (message_pass_without_batch_nodes _ _ _ _ _ _ Hnil) in H1 as ->.
  by eapply IH.
Qed.

(** X13.  A batch in which every adjacency row sums to zero has no batch
    node: the index lists and the three buffers are empty, the node mask is
    true nowhere, and the hidden states that any number of rounds returns
    are the input nodes, whatever [aggregate_message] and [update]
    return. *)
Theorem batch_without_edges_is_left_alone cls a nodes edges nl B N F :
  shape3 B N F nodes →
  (∀ b v row, cell (sum_last4 edges) b v = Some row → sum1 row = 0%Z) →
  map_edges a nodes edges = Ok nl →
  node_batch_batch_idc nl = []
  ∧ node_batch_node_idc nl = []
  ∧ node_batch_node_nghbs nl = []
  ∧ node_batch_edges nl = []
  ∧ node_batch_node_nghb_mask nl = []
  ∧ (∀ b v, cell (node_mask (adjacency nl)) b v ≠ Some true)
  ∧ ∀ passes w h w',
      message_passing cls nl passes (initial_hidden_nodes nodes) w
      = (Ok h, w') →
      h = nodes.
Proof.
intros Hnodes Hzero Hnl. pose proof Hnl as [D Hpost]%map_edges_Ok.
assert (node_batch edges = []) as Hnil.
{ apply nil_no_elem. intros [b v] (row & Hrow & Hsum)%node_batch_elem.
  apply Hsum. by eapply Hzero. }
assert (node_batch_batch_idc nl = []) as Hb.
{ rewrite (post_bidc _ _ _ _ _ Hpost). unfold bidc. by rewrite Hnil. }
split_and!.
- done.
- rewrite (post_nidc _ _ _ _ _ Hpost). unfold nidc. by rewrite Hnil.
- rewrite (post_nghbs _ _ _ _ _ Hpost). by rewrite Hnil.
- rewrite (post_edges _ _ _ _ _ Hpost). by rewrite Hnil.
- rewrite (post_mask _ _ _ _ _ Hpost). by rewrite Hnil.
- intros b v. rewrite node_mask_cell, (post_adjacency _ _ _ _ _ Hpost).
  destruct (cell (adj edges) b v) as [row|] eqn:Hrow; [|done]. simpl.
  rewrite (Hzero _ _ _ Hrow). by intros [=].
- intros passes w h w' Hm.
  apply (message_passing_without_batch_nodes _ _ _ _ _ _ _ Hb) in Hm as ->.
  by eapply initial_hidden_nodes_id.
Qed.

Lemma batch_without_edges_is_left_alone_witness :
  map_edges attrs0 nodes_pair edges_none = Ok batch_none
  ∧ ∀ passes w h w',
      message_passing with_aggregate batch_none passes
        (initial_hidden_nodes nodes_pair) w = (Ok h, w') →
      h = nodes_pair.
Proof.
split; [reflexivity|].
refine (proj2 (proj2 (proj2 (proj2 (proj2 (proj2
  (batch_without_edges_is_left_alone with_aggregate attrs0 nodes_pair
     edges_none batch_none 1 2 2 _ _ _))))))).
- by repeat constructor.
- intros [|b] [|[|v]] row [= <-]; reflexivity.
- reflexivity.
Defined.

Lemma setitem_row_hidden_wf B N F h i j row h' :
  hidden_wf B N F h → setitem_row h i j row = Ok h' → hidden_wf B N F h'.
Proof.
intros [Hrect Hcells] (old & new & Hold & _ & ->)%setitem_row_Ok.
split; [by apply rect_write|].
intros i' j' r. rewrite cell_write. case_decide as Hij; [|apply Hcells].
rewrite Hold. intros [= <-]. rewrite length_bcast. by eapply Hcells.
Qed.

Lemma index_put_hidden_wf B N F h bidc nidc vals h' :
  hidden_wf B N F h → index_put h bidc nidc vals = Ok h' →
  hidden_wf B N F h'.
Proof.
unfold index_put. intros Hwf Hput.
destruct (if bool_decide (length vals = length bidc) then _ else _)
  as [srcs|]; [|done].
simpl in Hput. revert Hwf Hput. apply foldM_Ok_pres.
intros t [[b v] src] t' _ Ht. by apply setitem_row_hidden_wf.
Qed.

Lemma message_pass_hidden_wf cls nl B N F h w h' w' :
  hidden_wf B N F h → message_pass cls nl h w = (Ok h', w') →
  hidden_wf B N F h'.
Proof.
unfold message_pass. intros Hwf Hm.
apply bind_Ok in Hm as (agg & w0 & _ & Hm).
apply bind_Ok in Hm as (rows & w1 & _ & Hm).
apply bind_Ok in Hm as (msgs & w2 & _ & Hm).
apply bind_Ok in Hm as (rows' & w3 & _ & Hm).
apply bind_Ok in Hm as (upd & w4 & _ & Hm).
apply lift_Ok in Hm as [Hput _]. by eapply index_put_hidden_wf.
Qed.

(** X14.  The rounds never change the shape of the hidden states: whatever
    [update] returns, each row it returns is broadcast to the hidden state
    it replaces, so that [readout] receives hidden states of the shape of
    the input nodes. *)
Theorem rounds_keep_the_shape_of_the_nodes cls nl passes nodes B N F w h w' :
  shape3 B N F nodes →
  message_passing cls nl passes (initial_hidden_nodes nodes) w = (Ok h, w') →
  shape3 B N F h.
Proof.
intros Hnodes Hm.
rewrite (initial_hidden_nodes_id _ _ _ _ Hnodes) in Hm.
apply shape3_hidden_wf in Hnodes.
cut (hidden_wf B N F h).
{ intros [??]. by apply shape3_of_cells. }
revert Hnodes Hm. generalize nodes as h0. revert w.
unfold message_passing. induction (seq 0 passes) as [|x l IH];
  intros w h0 Hwf Hm.
- by injection Hm as <- _.
- cbn [foldM] in Hm. apply bind_Ok in Hm as (h1 & w1 & H1 & Hm).
  eapply IH; [|done]. by eapply message_pass_hidden_wf.
Qed.

Lemma rounds_keep_the_shape_of_the_nodes_witness :
  shape3 1 3 2 nodes0
  ∧ ∃ h w',
      message_passing with_aggregate batch0 2 (initial_hidden_nodes nodes0)
        world0 = (Ok h, w')
      ∧ shape3 1 3 2 h.
Proof.
assert (shape3 1 3 2 nodes0) as Hnodes by by repeat constructor.
split; [done|]. eexists [[[3; 4]; [2; 1]; [3; 1]]]%Z, _.
assert (message_passing with_aggregate batch0 2 (initial_hidden_nodes nodes0)
          world0
        = (Ok [[[3; 4]; [2; 1]; [3; 1]]]%Z,
           {| self := attrs0;
              calls := [m_aggregate_message; m_update;
                        m_aggregate_message; m_update] |})) as Hm
  by reflexivity.
split; [exact Hm|].
exact (rounds_keep_the_shape_of_the_nodes with_aggregate batch0 2 nodes0
         1 3 2 world0 _ _ Hnodes Hm).
Defined.

End ForwardMore.
